(** * TimeSync: the subscription-and-scheduling engine of useTime

    A shallow embedding of the [TimeSync] class (the engine that multiplexes
    many "give me the time at most every N ms" subscribers onto one pending
    timer) together with the small part of the JavaScript runtime the class
    relies on: numbers, insertion-ordered [Map] and [Set] objects with their
    live iterators, closures and two timer systems ([window]'s and the one
    injected through the constructor).  The React binding built on the
    engine ([useTimeSync], the hydration swap of [SsrPlaceholderSwapper] and
    the providers' effects) is embedded after it. *)

From stdpp Require Import base tactics option numbers list strings gmap.

Open Scope Z_scope.
Open Scope nat_scope.

(** ** JavaScript numbers

    [maxUpdateIntervalMs] is a TypeScript [number].  Finite values are kept as
    their millisecond count; the three non-finite values are kept apart because
    [scheduleNextTick] compares against [Infinity] and [useTimeSync] defaults
    the interval to [Infinity]. *)

Inductive number : Type :=
| NaN
| NegInfinity
| Finite (ms : Z)
| Infinity.

#[global] Instance number_eq_dec : EqDecision number.
Proof. solve_decision. Defined.

(** The relational operator [x < y]; every comparison with [NaN] is false. *)
Definition num_lt (x y : number) : bool :=
  match x, y with
  | NaN, _ | _, NaN => false
  | NegInfinity, NegInfinity => false
  | NegInfinity, _ => true
  | Finite _, NegInfinity => false
  | Finite a, Finite b => (a <? b)%Z
  | Finite _, Infinity => true
  | Infinity, _ => false
  end.

(** Strict equality [x === y] on numbers; [NaN === NaN] is false. *)
Definition strict_eq (x y : number) : bool :=
  match x, y with
  | NaN, _ | _, NaN => false
  | _, _ => bool_decide (x = y)
  end.

(** ** Values handed around by the engine *)

(** A [Dayjs] snapshot is opaque to the engine; it is identified by the
    instant it was captured at. *)
Definition Dayjs : Type := Z.

(** A [SubscriptionCallback] is a function object; [Set] membership compares
    function objects by identity, which is what the number stands for. *)
Abbreviation Callback := nat.

(** Address of a [Set] object in the heap. *)
Abbreviation addr := nat.

(** ** Insertion-ordered containers with live iteration

    ECMAScript keeps the entries of a [Map] or [Set] in a list in insertion
    order.  [delete] blanks the entry in place, [add]/[set] of a new key
    appends, and an iterator is an index walking that list, skipping blanked
    entries.  That is the representation used here, so that a deletion while a
    [for ... of] loop is running has the effect it has in JavaScript. *)

Definition live {A} (entries : list (option A)) : list A := omap id entries.

Abbreviation JSSet := (list (option Callback)).

Definition set_has (s : JSSet) (c : Callback) : bool :=
  bool_decide (c ∈ live s).

Definition set_add (s : JSSet) (c : Callback) : JSSet :=
  if set_has s c then s else s ++ [Some c].

Definition set_delete (s : JSSet) (c : Callback) : JSSet :=
  (λ e, if decide (e = Some c) then None else e) <$> s.

Definition set_size (s : JSSet) : nat := length (live s).

Abbreviation JSMap := (list (option (number * addr))).

Definition map_keys (m : JSMap) : list number := fst <$> live m.

Fixpoint map_get (m : JSMap) (k : number) : option addr :=
  match m with
  | [] => None
  | Some (k', a) :: m' => if decide (k' = k) then Some a else map_get m' k
  | None :: m' => map_get m' k
  end.

Definition map_has (m : JSMap) (k : number) : bool :=
  bool_decide (k ∈ map_keys m).

(** [Map.prototype.set]: an existing key keeps its position and gets the new
    value, a new key is appended. *)
Definition map_set (m : JSMap) (k : number) (a : addr) : JSMap :=
  if map_has m k
  then (λ e, match e with
             | Some (k', a') => if decide (k' = k) then Some (k, a) else e
             | None => None
             end) <$> m
  else m ++ [Some (k, a)].

Definition map_delete (m : JSMap) (k : number) : JSMap :=
  (λ e, match e with
        | Some (k', _) => if decide (k' = k) then None else e
        | None => None
        end) <$> m.

(** ** Timer systems

    A timer system hands out increasing handles and remembers the timers that
    are armed and have neither fired nor been cancelled.  Every timer the
    engine arms carries the same function, [this.tick], so only the handle and
    the delay are recorded. *)

Record Timers : Type := {
  next_handle : nat;
  pending : list (nat * number);
}.

Definition no_timers : Timers := {| next_handle := 1; pending := [] |}.

Definition timers_set (delay : number) (t : Timers) : nat * Timers :=
  (next_handle t,
   {| next_handle := S (next_handle t);
      pending := pending t ++ [(next_handle t, delay)] |}).

(** [clearTimeout(undefined)] and [clearTimeout] of a handle that is not
    pending do nothing. *)
Definition timers_clear (handle : option nat) (t : Timers) : Timers :=
  match handle with
  | None => t
  | Some id =>
      {| next_handle := next_handle t;
         pending := filter (λ p, p.1 ≠ id) (pending t) |}
  end.

Definition is_pending (id : nat) (t : Timers) : bool :=
  bool_decide (id ∈ (fst <$> pending t)).

(** Which timer system a [setTimeout]/[clearTimeout] function value belongs
    to: the browser's, or the pair handed to the constructor. *)
Inductive Prim : Type := Window | Injected.

#[global] Instance Prim_eq_dec : EqDecision Prim.
Proof. solve_decision. Defined.

(** ** The engine *)

Record SubscriptionRequest : Type := {
  callback : Callback;
  maxUpdateIntervalMs : number;
}.

(** The private fields of a [TimeSync] instance. *)
Record TimeSync : Type := {
  subscriptions : JSMap;
  setTimeout : Prim;
  clearTimeout : Prim;
  nextTickId : option nat;
  nextTickMs : option number;
  latestTime : Dayjs;
}.

(** The function [subscribe] returns: a closure over [subGroup] (a reference
    to a [Set] object), [callback] and [maxUpdateIntervalMs]. *)
Record Unsubscribe : Type := {
  subGroup : addr;
  request : SubscriptionRequest;
}.

(** Everything an operation of the engine can read or change. *)
Record World : Type := {
  this : TimeSync;
  heap : list JSSet;            (* the [Set] objects, by address *)
  window : Timers;              (* [window.setTimeout]/[window.clearTimeout] *)
  injected : Timers;            (* the primitives given to the constructor *)
  closures : list Unsubscribe;  (* the functions [subscribe] has returned *)
}.

Definition with_this (f : TimeSync → TimeSync) (w : World) : World :=
  {| this := f (this w); heap := heap w; window := window w;
     injected := injected w; closures := closures w |}.

Definition with_heap (f : list JSSet → list JSSet) (w : World) : World :=
  {| this := this w; heap := f (heap w); window := window w;
     injected := injected w; closures := closures w |}.

Definition set_subscriptions (m : JSMap) (s : TimeSync) : TimeSync :=
  {| subscriptions := m; setTimeout := setTimeout s;
     clearTimeout := clearTimeout s; nextTickId := nextTickId s;
     nextTickMs := nextTickMs s; latestTime := latestTime s |}.

Definition set_nextTickId (h : option nat) (s : TimeSync) : TimeSync :=
  {| subscriptions := subscriptions s; setTimeout := setTimeout s;
     clearTimeout := clearTimeout s; nextTickId := h;
     nextTickMs := nextTickMs s; latestTime := latestTime s |}.

Definition set_nextTickMs (d : option number) (s : TimeSync) : TimeSync :=
  {| subscriptions := subscriptions s; setTimeout := setTimeout s;
     clearTimeout := clearTimeout s; nextTickId := nextTickId s;
     nextTickMs := d; latestTime := latestTime s |}.

Definition set_latestTime (t : Dayjs) (s : TimeSync) : TimeSync :=
  {| subscriptions := subscriptions s; setTimeout := setTimeout s;
     clearTimeout := clearTimeout s; nextTickId := nextTickId s;
     nextTickMs := nextTickMs s; latestTime := t |}.

Definition timers_of (p : Prim) (w : World) : Timers :=
  match p with Window => window w | Injected => injected w end.

Definition with_timers (p : Prim) (f : Timers → Timers) (w : World) : World :=
  match p with
  | Window =>
      {| this := this w; heap := heap w; window := f (window w);
         injected := injected w; closures := closures w |}
  | Injected =>
      {| this := this w; heap := heap w; window := window w;
         injected := f (injected w); closures := closures w |}
  end.

(** The [Set] object at an address. *)
Definition set_at (w : World) (a : addr) : JSSet := default [] (heap w !! a).

(** [new Set()] *)
Definition new_Set (w : World) : addr * World :=
  (length (heap w), with_heap (λ h, h ++ [[]]) w).

(** [new TimeSync({ initialTime, setTimeout, clearTimeout })]; a primitive
    left out of the init object defaults to [window]'s. *)
Definition new_TimeSync (initialTime : Dayjs) (st ct : option Prim) : World :=
  {| this := {| subscriptions := [];
                setTimeout := default Window st;
                clearTimeout := default Window ct;
                nextTickId := None;
                nextTickMs := None;
                latestTime := initialTime |};
     heap := [];
     window := no_timers;
     injected := no_timers;
     closures := [] |}.

(** The loop of [scheduleNextTick] over [this.#subscriptions.keys()]. *)
Definition earliest (keys : list number) : number :=
  foldl (λ earliestPossibleUpdateMs interval,
           if num_lt interval earliestPossibleUpdateMs
           then interval else earliestPossibleUpdateMs)
        Infinity keys.

Definition scheduleNextTick (w : World) : World :=
  let w := with_timers (clearTimeout (this w))
             (timers_clear (nextTickId (this w))) w in
  let earliestPossibleUpdateMs := earliest (map_keys (subscriptions (this w))) in
  if strict_eq earliestPossibleUpdateMs Infinity then w
  else
    let w := with_this (set_nextTickMs (Some Infinity)) w in
    (* a [setTimeout] given [undefined] as delay uses 0 *)
    let delay := default (Finite 0) (nextTickMs (this w)) in
    let '(id, t) := timers_set delay (timers_of (setTimeout (this w)) w) in
    let w := with_timers (setTimeout (this w)) (λ _, t) w in
    with_this (set_nextTickId (Some id)) w.

Definition getValue (w : World) : Dayjs := latestTime (this w).

Definition subscribe (req : SubscriptionRequest) (w : World)
  : World * Unsubscribe :=
  let '(sg, w) :=
    match map_get (subscriptions (this w)) (maxUpdateIntervalMs req) with
    | Some a => (a, w)
    | None => new_Set w
    end in
  let w :=
    if map_has (subscriptions (this w)) (maxUpdateIntervalMs req) then w
    else
      scheduleNextTick
        (with_this
           (λ s, set_subscriptions
                   (map_set (subscriptions s) (maxUpdateIntervalMs req) sg) s)
           w) in
  let w := with_heap (alter (λ s, set_add s (callback req)) sg) w in
  let unsubscribe := {| subGroup := sg; request := req |} in
  ({| this := this w; heap := heap w; window := window w;
      injected := injected w; closures := closures w ++ [unsubscribe] |},
   unsubscribe).

(** The body of the arrow function returned by [subscribe]. *)
Definition unsubscribe (u : Unsubscribe) (w : World) : World :=
  let w := with_heap
             (alter (λ s, set_delete s (callback (request u))) (subGroup u)) w in
  if set_size (set_at w (subGroup u)) =? 0 then
    scheduleNextTick
      (with_this
         (λ s, set_subscriptions
                 (map_delete (subscriptions s)
                             (maxUpdateIntervalMs (request u))) s)
         w)
  else w.

Definition cleanup (w : World) : World :=
  match nextTickId (this w) with
  | Some id =>
      with_this (set_nextTickId None)
        (with_timers Window (timers_clear (Some id)) w)
  | None => w
  end.

(** ** Dispatch

    What a subscriber's callback does when it is called is not part of the
    engine.  A callback is described by the unsubscribe functions it invokes
    (by their position in [closures], in order) and by whether it then raises
    an error.  Callbacks in this development do not call [subscribe], so no
    [Map] or [Set] grows while [tick] is iterating, and an iterator that
    started on a list of [n] entries visits the indices [0 .. n-1]. *)

Record Script : Type := {
  invokes : list nat;
  throws : bool;
}.

Definition quiet : Script := {| invokes := []; throws := false |}.

(** One delivery: the bucket it was reached through, the callback, the
    argument it was passed and what [getValue()] returned at that moment. *)
Record Notification : Type := {
  n_interval : number;
  n_callback : Callback;
  n_newTime : Dayjs;
  n_getValue : Dayjs;
}.

Inductive Outcome : Type := Returned | Threw.

(** Calling the [i]-th unsubscribe function. *)
Definition invoke (i : nat) (w : World) : World :=
  match closures w !! i with
  | Some u => unsubscribe u w
  | None => w
  end.

Section Dispatch.

Variable behaviour : Callback → Script.

(** [callback(newTime)] *)
Definition call (interval : number) (c : Callback) (newTime : Dayjs)
    (w : World) : World * Notification * Outcome :=
  let n := {| n_interval := interval; n_callback := c;
              n_newTime := newTime; n_getValue := getValue w |} in
  (foldl (λ w i, invoke i w) w (invokes (behaviour c)),
   n,
   if throws (behaviour c) then Threw else Returned).

(** [for (const callback of subGroup) callback(newTime)], from the given
    iterator positions on. *)
Fixpoint for_callbacks (interval : number) (sg : addr) (newTime : Dayjs)
    (positions : list nat) (w : World)
    : World * list Notification * Outcome :=
  match positions with
  | [] => (w, [], Returned)
  | j :: rest =>
      match set_at w sg !! j with
      | Some (Some c) =>
          let '(w, n, o) := call interval c newTime w in
          match o with
          | Threw => (w, [n], Threw)
          | Returned =>
              let '(w, ns, o) := for_callbacks interval sg newTime rest w in
              (w, n :: ns, o)
          end
      | _ => for_callbacks interval sg newTime rest w
      end
  end.

(** [for (const subGroup of this.#subscriptions.values()) ...] *)
Fixpoint for_subGroups (newTime : Dayjs) (positions : list nat) (w : World)
    : World * list Notification * Outcome :=
  match positions with
  | [] => (w, [], Returned)
  | i :: rest =>
      match subscriptions (this w) !! i with
      | Some (Some (interval, sg)) =>
          let '(w, ns, o) :=
            for_callbacks interval sg newTime
              (seq 0 (length (set_at w sg))) w in
          match o with
          | Threw => (w, ns, Threw)
          | Returned =>
              let '(w, ns', o) := for_subGroups newTime rest w in
              (w, ns ++ ns', o)
          end
      | _ => for_subGroups newTime rest w
      end
  end.

(** [tick]; [newTime] is the value [dayjs()] returns. *)
Definition tick (newTime : Dayjs) (w : World)
    : World * list Notification * Outcome :=
  let w := with_this (set_latestTime newTime) w in
  for_subGroups newTime (seq 0 (length (subscriptions (this w)))) w.

(** A pending timer of timer system [p] elapses: it stops being pending and
    its function, [tick], runs.  An error raised in there is reported by the
    host and is of no further consequence for the engine. *)
Definition timer_fires (p : Prim) (id : nat) (newTime : Dayjs) (w : World)
    : World * list Notification * Outcome :=
  if is_pending id (timers_of p w)
  then tick newTime (with_timers p (timers_clear (Some id)) w)
  else (w, [], Returned).

End Dispatch.

(** ** Sequences of operations on one engine *)

Inductive Op : Type :=
| OpSubscribe (req : SubscriptionRequest)
| OpUnsubscribe (i : nat)
| OpGetValue
| OpCleanup
| OpTimerFires (p : Prim) (id : nat) (newTime : Dayjs).

Definition step (behaviour : Callback → Script) (w : World) (op : Op) : World :=
  match op with
  | OpSubscribe req => (subscribe req w).1
  | OpUnsubscribe i => invoke i w
  | OpGetValue => w
  | OpCleanup => cleanup w
  | OpTimerFires p id newTime => (timer_fires behaviour p id newTime w).1.1
  end.

Definition run (behaviour : Callback → Script) (ops : list Op) (w : World)
  : World :=
  foldl (step behaviour) w ops.

(** ** Vocabulary of the properties *)

Definition req (c : Callback) (interval : number) : SubscriptionRequest :=
  {| callback := c; maxUpdateIntervalMs := interval |}.

Definition interval_of (u : Unsubscribe) : number :=
  maxUpdateIntervalMs (request u).

Definition callback_of (u : Unsubscribe) : Callback := callback (request u).

(** The [Set] object the bucket map holds for an interval. *)
Definition bucket (w : World) (k : number) : option addr :=
  map_get (subscriptions (this w)) k.

(** [c] is an active subscriber of the bucket for interval [k]. *)
Definition active (w : World) (k : number) (c : Callback) : Prop :=
  ∃ a, bucket w k = Some a ∧ c ∈ live (set_at w a).

(** Every member of every bucket, in the order [tick] iterates. *)
Definition registrations_of (m : JSMap) (w : World)
  : list (number * Callback) :=
  live m ≫= λ e, (λ c, (e.1, c)) <$> live (set_at w e.2).

Definition registrations (w : World) : list (number * Callback) :=
  registrations_of (subscriptions (this w)) w.

Definition reg (n : Notification) : number * Callback :=
  (n_interval n, n_callback n).

(** How often a tick called callback [c] through bucket [k]. *)
Definition times_notified (k : number) (c : Callback)
    (ns : list Notification) : nat :=
  length (filter (λ r, r = (k, c)) (reg <$> ns)).

(** Shape of the heap and of the bucket map that every sequence of operations
    maintains. *)
Record wf (w : World) : Prop := {
  wf_keys : NoDup (map_keys (subscriptions (this w)));
  wf_sets : Forall (λ s : JSSet, NoDup (live s)) (heap w);
  wf_addr : ∀ k a, bucket w k = Some a → a < length (heap w);
  wf_inj : ∀ k1 k2 a, bucket w k1 = Some a → bucket w k2 = Some a → k1 = k2;
}.

(** An unsubscribe function leaves the registration of [c] in the [Set] [a] of
    bucket [k] alone: it is not an unsubscribe function of [c] on that [Set],
    and if it was made for interval [k] it was made on that [Set]. *)
Definition spares (u : Unsubscribe) (k : number) (a : addr) (c : Callback)
  : Prop :=
  (subGroup u = a → callback_of u ≠ c) ∧ (interval_of u = k → subGroup u = a).

(** [l'] is [l] with some entries blanked: what deletions do to the entry
    list of a [Map] or [Set]. *)
Definition blanked {A} (l l' : list (option A)) : Prop :=
  Forall2 (λ e e', e' = e ∨ e' = None) l l'.

(** Nothing was added between [w] and [w']: the bucket map and every [Set]
    only had entries blanked, and no unsubscribe function was created. *)
Definition shrinks (w w' : World) : Prop :=
  blanked (subscriptions (this w)) (subscriptions (this w'))
  ∧ Forall2 blanked (heap w) (heap w')
  ∧ closures w' = closures w.

(** The entries an iterator finds at the given positions. *)
Definition pick {A} (l : list (option A)) (positions : list nat) : list A :=
  omap (λ j, l !! j ≫= id) positions.

(** The members of the [Set] of a bucket, tagged with the bucket's interval. *)
Definition members (w : World) (e : number * addr)
  : list (number * Callback) :=
  (λ c, (e.1, c)) <$> live (set_at w e.2).


(** The engine was built on [window]'s timer primitives. *)
Definition window_only (w : World) : Prop :=
  setTimeout (this w) = Window ∧ clearTimeout (this w) = Window.

(** No timer is pending, or exactly one and its handle is the recorded one. *)
Definition one_timer (w : World) : Prop :=
  pending (injected w) = []
  ∧ (pending (window w) = []
     ∨ ∃ id d, pending (window w) = [(id, d)]
               ∧ nextTickId (this w) = Some id).

(** Dispatch over a list of registrations when no callback touches the
    engine: everybody up to and including the first callback that throws. *)
Fixpoint until_throw (behaviour : Callback → Script)
    (rs : list (number * Callback)) : list (number * Callback) * Outcome :=
  match rs with
  | [] => ([], Returned)
  | r :: rs' =>
      if throws (behaviour r.2) then ([r], Threw)
      else let '(l, o) := until_throw behaviour rs' in (r :: l, o)
  end.

Definition notification (newTime : Dayjs) (r : number * Callback)
  : Notification :=
  {| n_interval := r.1; n_callback := r.2;
     n_newTime := newTime; n_getValue := newTime |}.

(** The snapshots captured by the ticks that ran during a sequence of
    operations, oldest first. *)
Fixpoint captured (behaviour : Callback → Script) (ops : list Op) (w : World)
  : list Dayjs :=
  match ops with
  | [] => []
  | op :: ops' =>
      match op with
      | OpTimerFires p id newTime =>
          if is_pending id (timers_of p w) then [newTime] else []
      | _ => []
      end ++ captured behaviour ops' (step behaviour w op)
  end.

Definition is_tick (op : Op) : bool :=
  match op with OpTimerFires _ _ _ => true | _ => false end.

(** *** The subscriber's side of the bookkeeping

    Independently of the engine: the requests made so far, each with whether
    the function returned for it has been invoked. *)

Definition note (made : list (SubscriptionRequest * bool)) (op : Op)
  : list (SubscriptionRequest * bool) :=
  match op with
  | OpSubscribe r => made ++ [(r, false)]
  | OpUnsubscribe i => alter (λ e, (e.1, true)) i made
  | _ => made
  end.

Definition live_intervals (ops : list Op) : list number :=
  (λ e, maxUpdateIntervalMs e.1) <$>
    filter (λ e : SubscriptionRequest * bool, e.2 = false) (foldl note [] ops).

(** "The set of active buckets equals the set of distinct requested intervals
    with at least one live subscriber", for the engine state a sequence of
    operations leads to. *)
Definition buckets_are_live_intervals (behaviour : Callback → Script)
    (ops : list Op) : Prop :=
  ∀ k, k ∈ map_keys (subscriptions (this (run behaviour ops
                                            (new_TimeSync 0%Z None None))))
       ↔ k ∈ live_intervals ops.

(** The engine's state and the subscriber's bookkeeping agree as far as they
    always do: [made] lists the requests of the functions in [closures], every
    member of a bucket has a function that closes over that bucket's [Set] and
    has not been invoked, a function's [Set] is the bucket of no interval but
    its own, and no bucket is empty. *)
Record accounted (w : World) (made : list (SubscriptionRequest * bool))
  : Prop := {
  acc_wf : wf w;
  acc_requests : request <$> closures w = fst <$> made;
  acc_heap : ∀ u, u ∈ closures w → subGroup u < length (heap w);
  acc_owner : ∀ u k,
    u ∈ closures w → bucket w k = Some (subGroup u) → k = interval_of u;
  acc_member : ∀ k a c,
    bucket w k = Some a → c ∈ live (set_at w a) →
    ∃ i, closures w !! i = Some {| subGroup := a; request := req c k |}
         ∧ made !! i = Some (req c k, false);
  acc_nonempty : ∀ k a, bucket w k = Some a → live (set_at w a) ≠ [];
}.

(** A client that invokes each unsubscribe function at most once, and does
    not subscribe a callback again at an interval it is still subscribed at. *)
Definition well_behaved_op (made : list (SubscriptionRequest * bool))
    (op : Op) : Prop :=
  match op with
  | OpSubscribe r => (r, false) ∉ made
  | OpUnsubscribe i => ∃ r, made !! i = Some (r, false)
  | _ => True
  end.

Fixpoint well_behaved (made : list (SubscriptionRequest * bool))
    (ops : list Op) : Prop :=
  match ops with
  | [] => True
  | op :: ops' => well_behaved_op made op ∧ well_behaved (note made op) ops'
  end.

(** With such a client the bookkeeping agrees in the other direction too:
    every request whose function has not been invoked is registered in the
    bucket of its interval, through the [Set] its function closes over. *)
Record tracked (w : World) (made : list (SubscriptionRequest * bool))
  : Prop := {
  tr_accounted : accounted w made;
  tr_live : ∀ i r,
    made !! i = Some (r, false) →
    ∃ a, closures w !! i = Some {| subGroup := a; request := r |}
         ∧ bucket w (maxUpdateIntervalMs r) = Some a
         ∧ callback r ∈ live (set_at w a);
  tr_unique : ∀ i j r,
    made !! i = Some (r, false) → made !! j = Some (r, false) → i = j;
}.

(** What can be observed of the engine: who a tick would notify, and the
    timers that are armed. *)
Definition observable (w : World)
  : list (number * Callback) * list (nat * number) * list (nat * number) :=
  (registrations w, pending (window w), pending (injected w)).


(** *** Scenarios *)

Definition all_quiet : Callback → Script := λ _, quiet.



Definition default_engine : World := new_TimeSync 0%Z None None.

Definition injected_engine : World :=
  new_TimeSync 0%Z (Some Injected) (Some Injected).

Definition three_subscribers : list Op :=
  [OpSubscribe (req 1 (Finite 1000));
   OpSubscribe (req 2 (Finite 5000));
   OpSubscribe (req 3 (Finite 1000))].

Definition stale_unsubscribe : list Op :=
  [OpSubscribe (req 1 (Finite 1000));
   OpUnsubscribe 0;
   OpSubscribe (req 2 (Finite 1000));
   OpUnsubscribe 0].

Definition unsubscribed_once : list Op :=
  [OpSubscribe (req 1 (Finite 1000));
   OpUnsubscribe 0;
   OpSubscribe (req 2 (Finite 1000))].

Definition cleanup_then_subscribe : list Op :=
  [OpSubscribe (req 1 (Finite 1000));
   OpCleanup;
   OpSubscribe (req 2 (Finite 2000))].

(** ** The React binding

    [useTimeSync], [SsrPlaceholderSwapper] and [TimeSyncProvider] are React
    code.  What is embedded is what their bodies compute: the value a hook
    call returns for the snapshot [useSyncExternalStore] hands it, the bodies
    of the effects as functions on the engine, on the formatter tracker and on
    the elements of the document, and the engine the provider creates. *)

Abbreviation TimeFormatter := (Dayjs → string).

Record UseTimeConfig : Type := {
  formatter : option TimeFormatter;
  targetUpdateIntervalMs : option number;
}.

(** [const { formatter, targetUpdateIntervalMs = Infinity } = config ?? {}] *)
Definition config_formatter (config : option UseTimeConfig)
  : option TimeFormatter :=
  config ≫= formatter.

Definition config_interval (config : option UseTimeConfig) : number :=
  default Infinity (config ≫= targetUpdateIntervalMs).

(** The object in the [FormatterTrackerContext] ref. *)
Record FormatterTracker : Type := {
  processable : bool;
  components : gmap string (option TimeFormatter);
}.

Definition set_processable (b : bool) (tr : FormatterTracker)
  : FormatterTracker :=
  {| processable := b; components := components tr |}.

(** An element of the document: its attributes ([id] among them) and its
    text. *)
Record Element : Type := {
  attributes : list (string * string);
  innerText : string;
}.

Fixpoint getAttribute (attrs : list (string * string)) (name : string)
  : option string :=
  match attrs with
  | [] => None
  | (n, v) :: attrs' =>
      if decide (n = name) then Some v else getAttribute attrs' name
  end.

Definition set_innerText (text : string) (el : Element) : Element :=
  {| attributes := attributes el; innerText := text |}.

Inductive ReactNode : Type :=
| Text (s : string)
| Span (el : Element).

Inductive Result (A : Type) : Type :=
| Ok (a : A)
| Throw (message : string).

Arguments Ok {A} a.
Arguments Throw {A} message.

Definition SSR_INITIAL_RENDER_OPAQUE_VALUE : string :=
  "<--USE_TIME_SYNC-SSR_INITIAL_RENDER-->".

Definition not_wrapped : string :=
  "useTimeSync: hook called in component that is not wrapped inside TimeProvider".

Definition no_hook_id : string := "Found SSR placeholder without hook ID".

(** The snapshot [useSyncExternalStore] returns: the server snapshot
    ([() => null]) while rendering on the server and while hydrating, the
    client snapshot ([() => sync.getValue()]) afterwards. *)
Definition useSyncExternalStore (hydrating : bool) (w : World)
  : option Dayjs :=
  if hydrating then None else Some (getValue w).

(** The function [useTimeSync] hands to [useSyncExternalStore] as
    [subscribe], applied to React's [notifyReact]. *)
Definition hook_subscribe (config : option UseTimeConfig)
    (notifyReact : Callback) (w : World) : World * Unsubscribe :=
  subscribe {| callback := notifyReact;
               maxUpdateIntervalMs := config_interval config |} w.

(** The layout effect of [useTimeSync], run when the component mounts. *)
Definition register (hookId : string) (config : option UseTimeConfig)
    (tr : FormatterTracker) : FormatterTracker :=
  if processable tr
  then {| processable := processable tr;
          components := <[hookId := config_formatter config]> (components tr) |}
  else tr.

(** [callback ? callback(initialTime) : initialString], for
    [callback = ref.components.get(hookId)]. *)
Definition swapped_text (toString : Dayjs → string) (tr : FormatterTracker)
    (hookId : string) (initialTime : Dayjs) : string :=
  match components tr !! hookId with
  | Some (Some callback) => callback initialTime
  | _ => toString initialTime
  end.

(** The loop of [SsrPlaceholderSwapper]'s effect over the elements the
    selector matches, in document order; the other elements of the document
    are not touched.  [hook_id_attribute] is the name handed to
    [el.getAttribute]. *)
Fixpoint swap_placeholders (toString : Dayjs → string)
    (matches : Element → bool) (hook_id_attribute : string)
    (tr : FormatterTracker) (initialTime : Dayjs) (doc : list Element)
  : list Element * Result unit :=
  match doc with
  | [] => ([], Ok ())
  | el :: rest =>
      if matches el then
        match getAttribute (attributes el) hook_id_attribute with
        | None => (el :: rest, Throw no_hook_id)
        | Some hookId =>
            let el := set_innerText
                        (swapped_text toString tr hookId initialTime) el in
            let '(rest, r) :=
              swap_placeholders toString matches hook_id_attribute tr
                initialTime rest in
            (el :: rest, r)
        end
      else
        let '(rest, r) :=
          swap_placeholders toString matches hook_id_attribute tr
            initialTime rest in
        (el :: rest, r)
  end.

(** [function defaultCreateTimeSync(initialTime)] *)
Definition defaultCreateTimeSync (initialTime : Dayjs) : World :=
  new_TimeSync initialTime None None.

(** [tracker.current = { processable: true, components: new Map() }] *)
Definition new_tracker : FormatterTracker :=
  {| processable := true; components := ∅ |}.

(** The version of src/react-time-sync/useTimeSync.tsx: the placeholder is
    found through its [id]. *)
Module ById.

Definition SSR_PLACEHOLDER_ID_PREFIX : string := "data-useTimeSync-ssr".

Definition placeholder (hookId : string) : Element :=
  {| attributes := [("id", SSR_PLACEHOLDER_ID_PREFIX +:+ "-" +:+ hookId)];
     innerText := SSR_INITIAL_RENDER_OPAQUE_VALUE |}.

Definition useTimeSync (toString : Dayjs → string)
    (sync : option World) (tracker : option FormatterTracker)
    (config : option UseTimeConfig) (hookId : string) (hydrating : bool)
  : Result ReactNode :=
  match sync, tracker with
  | Some w, Some _ =>
      match useSyncExternalStore hydrating w with
      | None => Ok (Span (placeholder hookId))
      | Some time =>
          Ok (Text (match config_formatter config with
                    | Some formatter => formatter time
                    | None => toString time
                    end))
      end
  | _, _ => Throw not_wrapped
  end.

(** [[id^="data-useTimeSync-ssr"]] *)
Definition matches (el : Element) : bool :=
  match getAttribute (attributes el) "id" with
  | Some id => String.prefix SSR_PLACEHOLDER_ID_PREFIX id
  | None => false
  end.

(** The layout effect of [SsrPlaceholderSwapper]: the document and the
    tracker it leaves, and the cleanup function it returns (if any). *)
Definition swapper_effect (toString : Dayjs → string) (has_window : bool)
    (w : World) (tr : FormatterTracker) (doc : list Element)
  : list Element * FormatterTracker
    * Result (option (FormatterTracker → FormatterTracker)) :=
  if negb has_window then (doc, tr, Ok None)
  else
    let tr := set_processable false tr in
    let cleanup := set_processable true in
    if length (filter (λ el, matches el = true) doc) =? 0
    then (doc, tr, Ok (Some cleanup))
    else
      let initialTime := getValue w in
      match swap_placeholders toString matches SSR_PLACEHOLDER_ID_PREFIX
              tr initialTime doc with
      | (doc, Ok _) => (doc, tr, Ok (Some cleanup))
      | (doc, Throw message) => (doc, tr, Throw message)
      end.

End ById.

(** The version with the hook in the same file as the class: the placeholder
    carries two data attributes. *)
Module ByAttribute.

Definition SSR_HOOK_ID_DATA_ATTRIBUTE : string :=
  "data-useTimeSync-ssr-hook-id".

Definition SSR_INTIAL_RENDER_DATA_ATTRIBUTE : string :=
  "data-useTimeSync-ssr-initial-value".

(** React writes a [true] given to a [data-] attribute as the text [true]. *)
Definition placeholder (hookId : string) : Element :=
  {| attributes := [(SSR_INTIAL_RENDER_DATA_ATTRIBUTE, "true");
                    (SSR_HOOK_ID_DATA_ATTRIBUTE, hookId)];
     innerText := SSR_INITIAL_RENDER_OPAQUE_VALUE |}.

Definition useTimeSync (toString : Dayjs → string)
    (sync : option World) (tracker : option FormatterTracker)
    (config : option UseTimeConfig) (hookId : string) (hydrating : bool)
  : Result ReactNode :=
  match sync, tracker with
  | Some w, Some _ =>
      match useSyncExternalStore hydrating w with
      | None => Ok (Span (placeholder hookId))
      | Some time =>
          Ok (Text (match config_formatter config with
                    | Some formatter => formatter time
                    | None => toString time
                    end))
      end
  | _, _ => Throw not_wrapped
  end.

(** [[data-useTimeSync-ssr-initial-value="true"]] *)
Definition matches (el : Element) : bool :=
  bool_decide (getAttribute (attributes el) SSR_INTIAL_RENDER_DATA_ATTRIBUTE
               = Some "true").

Definition swapper_effect (toString : Dayjs → string) (has_window : bool)
    (w : World) (tr : FormatterTracker) (doc : list Element)
  : list Element * FormatterTracker
    * Result (option (FormatterTracker → FormatterTracker)) :=
  if negb has_window then (doc, tr, Ok None)
  else
    let tr := set_processable false tr in
    let initialTime := getValue w in
    match swap_placeholders toString matches SSR_HOOK_ID_DATA_ATTRIBUTE
            tr initialTime doc with
    | (doc, Ok _) => (doc, tr, Ok (Some (set_processable true)))
    | (doc, Throw message) => (doc, tr, Throw message)
    end.

End ByAttribute.

(** Operations in which every subscription asks for an interval that is not
    below [Infinity] (as a hook without [targetUpdateIntervalMs] does). *)
Definition never_due (op : Op) : Prop :=
  match op with
  | OpSubscribe r => num_lt (maxUpdateIntervalMs r) Infinity = false
  | _ => True
  end.

(** React subscribing a component that called [useTimeSync(config)]: the
    operation [hook_subscribe] performs. *)
Definition OpMount (config : option UseTimeConfig) (notifyReact : Callback)
  : Op :=
  OpSubscribe {| callback := notifyReact;
                 maxUpdateIntervalMs := config_interval config |}.

(** *** The providers' effects *)

(** [useEffect(() => { return readonlyStableManager.cleanup(); }, ...)] in
    [TimeProvider]: the effect calls [cleanup] and returns what it returns,
    [undefined], so React has nothing to run at unmount.  The result is the
    engine after the effect and the destructor, if any. *)
Definition TimeProvider_effect (w : World) : World * option (World → World) :=
  (cleanup w, None).

(** [useEffect(() => { return () => timeSync.cleanup(); }, ...)] in
    [TimeSyncProvider]. *)
Definition TimeSyncProvider_effect (w : World)
  : World * option (World → World) :=
  (w, Some cleanup).

(** React running the destructor of an effect. *)
Definition unmount (destructor : option (World → World)) (w : World) : World :=
  match destructor with
  | Some f => f w
  | None => w
  end.

(** ** Vocabulary of the further properties *)

(** A timer is pending on [window] only if some bucket's interval is below
    [Infinity]. *)
Definition armed_only_when_due (w : World) : Prop :=
  pending (window w) = []
  ∨ ∃ k, k ∈ map_keys (subscriptions (this w)) ∧ num_lt k Infinity = true.

(** Every pending timer, of either timer system, has the delay [Infinity]. *)
Definition delays_are_Infinity (w : World) : Prop :=
  Forall (λ e : nat * number, e.2 = Infinity) (pending (window w))
  ∧ Forall (λ e : nat * number, e.2 = Infinity) (pending (injected w)).

(** No bucket is due, nothing is armed or recorded, and no tick has run. *)
Definition idle (initialTime : Dayjs) (w : World) : Prop :=
  (∀ k, k ∈ map_keys (subscriptions (this w)) → num_lt k Infinity = false)
  ∧ pending (window w) = []
  ∧ pending (injected w) = []
  ∧ nextTickId (this w) = None
  ∧ latestTime (this w) = initialTime.

(** What [useTimeSync] returns on a client render:
    [formatter ? formatter(time) : time.toString()]. *)
Definition client_text (toString : Dayjs → string)
    (config : option UseTimeConfig) (time : Dayjs) : string :=
  match config_formatter config with
  | Some formatter => formatter time
  | None => toString time
  end.

(** The layout effects of the hooks of a tree, each with its hook id, run in
    order on the tracker. *)
Definition mount_all (hooks : list (string * option UseTimeConfig))
    (tr : FormatterTracker) : FormatterTracker :=
  foldl (λ tr h, register h.1 h.2 tr) tr hooks.

(** ** Dispatch with faults, and further scenarios *)


(** The unsubscribe functions invoked by the callbacks that were notified, in
    the order of the calls. *)
Definition invocations (behaviour : Callback → Script)
    (ns : list Notification) : list nat :=
  ns ≫= λ n, invokes (behaviour (n_callback n)).




(** Callback 3 invokes the unsubscribe function it got for itself and the
    one callback 1 got. *)
Definition third_invokes_stale : Callback → Script :=
  λ c, if decide (c = 3) then {| invokes := [0; 1]; throws := false |}
       else quiet.

(** Callback 1 is unsubscribed before callback 2 subscribes at the same
    interval; the function of callback 1 is then a stale one. *)
Definition stale_inside_tick : list Op :=
  [OpSubscribe (req 3 (Finite 500));
   OpSubscribe (req 1 (Finite 1000));
   OpUnsubscribe 1;
   OpSubscribe (req 2 (Finite 1000))].

(** The function of callback 9 is invoked a second time while callbacks 1
    and 2 are subscribed at its interval. *)
Definition stale_before_resubscribe : list Op :=
  [OpSubscribe (req 9 (Finite 1000));
   OpUnsubscribe 0;
   OpSubscribe (req 1 (Finite 1000));
   OpSubscribe (req 2 (Finite 1000));
   OpUnsubscribe 0].

(** * Properties *)

(** ** Reading the snapshot *)

(** [scheduleNextTick] touches the timers and the two [nextTick] fields and
    nothing else. *)
Ltac schedule_frame :=
  intros [[subs st ct id ms latest] h win inj cl];
  unfold scheduleNextTick; simpl;
  destruct st, ct; simpl; destruct (strict_eq _ _); reflexivity.

Lemma latestTime_scheduleNextTick w :
  latestTime (this (scheduleNextTick w)) = latestTime (this w).
Proof. revert w. schedule_frame. Qed.

Lemma subscriptions_scheduleNextTick w :
  subscriptions (this (scheduleNextTick w)) = subscriptions (this w).
Proof. revert w. schedule_frame. Qed.

Lemma heap_scheduleNextTick w : heap (scheduleNextTick w) = heap w.
Proof. revert w. schedule_frame. Qed.

Lemma closures_scheduleNextTick w :
  closures (scheduleNextTick w) = closures w.
Proof. revert w. schedule_frame. Qed.

Lemma setTimeout_scheduleNextTick w :
  setTimeout (this (scheduleNextTick w)) = setTimeout (this w).
Proof. revert w. schedule_frame. Qed.

Lemma clearTimeout_scheduleNextTick w :
  clearTimeout (this (scheduleNextTick w)) = clearTimeout (this w).
Proof. revert w. schedule_frame. Qed.

Lemma set_at_scheduleNextTick w a :
  set_at (scheduleNextTick w) a = set_at w a.
Proof. unfold set_at. by rewrite heap_scheduleNextTick. Qed.

Lemma latestTime_unsubscribe u w :
  latestTime (this (unsubscribe u w)) = latestTime (this w).
Proof.
  unfold unsubscribe. destruct (_ =? _); [|done].
  by rewrite latestTime_scheduleNextTick.
Qed.

Lemma latestTime_invoke i w :
  latestTime (this (invoke i w)) = latestTime (this w).
Proof.
  unfold invoke. destruct (_ !! _); [|done]. apply latestTime_unsubscribe.
Qed.

Lemma latestTime_invokes idxs w :
  latestTime (this (foldl (λ w i, invoke i w) w idxs)) = latestTime (this w).
Proof.
  revert w. induction idxs as [|i idxs IH]; intros w; simpl; [done|].
  by rewrite IH, latestTime_invoke.
Qed.

Lemma latestTime_subscribe r w :
  latestTime (this (subscribe r w).1) = latestTime (this w).
Proof.
  unfold subscribe, new_Set.
  destruct (map_get _ _); simpl; destruct (map_has _ _); simpl; try done;
    by rewrite latestTime_scheduleNextTick.
Qed.

Lemma latestTime_cleanup w : latestTime (this (cleanup w)) = latestTime (this w).
Proof. unfold cleanup. by destruct (nextTickId _). Qed.

Lemma last_nonempty {A} (x : A) l d d' :
  List.last (x :: l) d = List.last (x :: l) d'.
Proof.
  revert x. induction l as [|y l IH]; intros x; [done|].
  change (List.last (y :: l) d = List.last (y :: l) d'). apply IH.
Qed.

Section Snapshot.

Variable behaviour : Callback → Script.

Lemma for_callbacks_latestTime k a t ps w :
  latestTime (this (for_callbacks behaviour k a t ps w).1.1)
  = latestTime (this w)
  ∧ Forall (λ n, n_newTime n = t ∧ n_getValue n = getValue w)
      (for_callbacks behaviour k a t ps w).1.2.
Proof.
  revert w. induction ps as [|j ps IH]; intros w; simpl; [done|].
  destruct (set_at w a !! j) as [[c|]|]; [|apply IH..].
  unfold call.
  set (w1 := foldl _ w _).
  assert (Hw1 : latestTime (this w1) = latestTime (this w))
    by apply latestTime_invokes.
  destruct (throws _); simpl.
  { split; [done|]. by repeat constructor. }
  destruct (IH w1) as [IH1 IH2].
  destruct (for_callbacks _ _ _ _ _ w1) as [[w2 ns] o]; simpl in *.
  split; [congruence|].
  constructor; [done|].
  unfold getValue in *. by rewrite <- Hw1.
Qed.

Lemma for_subGroups_latestTime t ps w :
  latestTime (this (for_subGroups behaviour t ps w).1.1)
  = latestTime (this w)
  ∧ Forall (λ n, n_newTime n = t ∧ n_getValue n = getValue w)
      (for_subGroups behaviour t ps w).1.2.
Proof.
  revert w. induction ps as [|i ps IH]; intros w; simpl; [done|].
  destruct (subscriptions (this w) !! i) as [[[k a]|]|]; [|apply IH..].
  destruct (for_callbacks_latestTime k a t (seq 0 (length (set_at w a))) w)
    as [H1 H2].
  destruct (for_callbacks _ _ _ _ _ w) as [[w1 ns] o]; simpl in *.
  destruct o; simpl; [|done].
  destruct (IH w1) as [IH1 IH2].
  destruct (for_subGroups _ _ _ w1) as [[w2 ns'] o']; simpl in *.
  split; [congruence|].
  apply Forall_app; split; [done|].
  unfold getValue in *. by rewrite <- H1.
Qed.

Lemma getValue_tick t w : getValue (tick behaviour t w).1.1 = t.
Proof.
  unfold tick, getValue.
  by rewrite (proj1 (for_subGroups_latestTime _ _ _)).
Qed.


Lemma getValue_step w op :
  is_tick op = false → getValue (step behaviour w op) = getValue w.
Proof.
  unfold getValue.
  destruct op; simpl; intros; try done.
  - apply latestTime_subscribe.
  - apply latestTime_invoke.
  - apply latestTime_cleanup.
Qed.

Lemma getValue_timer_fires p id t w :
  getValue (timer_fires behaviour p id t w).1.1
  = if is_pending id (timers_of p w) then t else getValue w.
Proof.
  unfold timer_fires. destruct (is_pending _ _); [|done].
  apply getValue_tick.
Qed.

Lemma getValue_run ops w :
  getValue (run behaviour ops w)
  = List.last (captured behaviour ops w) (getValue w).
Proof.
  revert w. induction ops as [|op ops IH]; intros w; [done|].
  unfold run in *. simpl. rewrite IH.
  destruct (is_tick op) eqn:Htick.
  - destruct op; try done. simpl.
    rewrite getValue_timer_fires.
    destruct (is_pending _ _); [|done]. simpl.
    destruct (captured _ _ _) as [|t' ts]; [done|].
    apply last_nonempty.
  - rewrite (getValue_step w op Htick). by destruct op.
Qed.

End Snapshot.

(** C9: [getValue] returns the snapshot captured by the most recent tick that
    ran, and the snapshot given to the constructor when none has run yet; it
    changes nothing in the engine; and whatever happens between two ticks
    (subscribing, unsubscribing, cleanup, reading), it keeps returning the same
    snapshot. *)
Theorem getValue_returns_latest_snapshot
    behaviour initialTime st ct (ops between : list Op) :
  Forall (λ op, is_tick op = false) between →
  let w0 := new_TimeSync initialTime st ct in
  let w := run behaviour ops w0 in
  getValue w = List.last (captured behaviour ops w0) initialTime
  ∧ step behaviour w OpGetValue = w
  ∧ getValue (run behaviour between w) = getValue w
  ∧ getValue (run behaviour between w0) = initialTime.
Proof.
  intros Hbetween w0 w.
  assert (Hrun : ∀ w', getValue (run behaviour between w') = getValue w').
  { induction Hbetween as [|op between Hop _ IH]; intros w'; [done|].
    unfold run in *. simpl. by rewrite IH, getValue_step. }
  split_and!; [apply getValue_run|done|apply Hrun|apply Hrun].
Qed.

Lemma getValue_returns_latest_snapshot_witness :
  Forall (λ op, is_tick op = false) [OpGetValue; OpCleanup; OpUnsubscribe 1]
  ∧ getValue (run all_quiet [OpGetValue; OpCleanup; OpUnsubscribe 1]
                (run all_quiet
                   (three_subscribers ++ [OpTimerFires Window 2 7%Z])
                   default_engine))
    = 7%Z.
Proof.
  assert (H : Forall (λ op, is_tick op = false)
                [OpGetValue; OpCleanup; OpUnsubscribe 1])
    by (repeat constructor).
  split; [exact H|].
  exact (eq_trans
           (proj1 (proj2 (proj2
              (getValue_returns_latest_snapshot all_quiet 0%Z None None
                 (three_subscribers ++ [OpTimerFires Window 2 7%Z]) _ H))))
           eq_refl).
Defined.

(** ** Scheduling *)

Lemma earliest_app ks ks' :
  earliest (ks ++ ks')
  = foldl (λ e interval, if num_lt interval e then interval else e)
      (earliest ks) ks'.
Proof. unfold earliest. apply foldl_app. Qed.

(** What [scheduleNextTick] does: the recorded handle is cancelled; if no key
    is below [Infinity] nothing else happens; otherwise one timer is armed, with
    delay [Infinity] whatever the keys are, and its handle is recorded. *)
Lemma scheduleNextTick_spec w :
  let cleared :=
    with_timers (clearTimeout (this w))
      (timers_clear (nextTickId (this w))) w in
  scheduleNextTick w =
    if strict_eq (earliest (map_keys (subscriptions (this w)))) Infinity
    then cleared
    else
      let id := next_handle (timers_of (setTimeout (this w)) cleared) in
      with_this (λ s, set_nextTickId (Some id)
                        (set_nextTickMs (Some Infinity) s))
        (with_timers (setTimeout (this w))
           (λ t, {| next_handle := S (next_handle t);
                    pending := pending t ++ [(next_handle t, Infinity)] |})
           cleared).
Proof.
  destruct w as [[subs st ct id ms latest] h win inj cl].
  unfold scheduleNextTick; simpl.
  destruct st, ct; simpl; destruct (strict_eq _ _); reflexivity.
Qed.

(** C4: after subscriptions at 1000, 5000 and 1000 ms the minimum requested
    interval is 1000 ms, yet the timer that the last schedule recomputation
    armed and recorded (when the 5000 ms bucket was created) has delay
    [Infinity], and so has the timer another recomputation arms. *)
Theorem scheduleNextTick_arms_with_Infinity :
  let w := run all_quiet three_subscribers default_engine in
  let w' := scheduleNextTick w in
  earliest (map_keys (subscriptions (this w))) = Finite 1000
  ∧ pending (window w) = [(2, Infinity)]
  ∧ nextTickId (this w) = Some 2
  ∧ nextTickMs (this w) = Some Infinity
  ∧ pending (window w') = [(3, Infinity)]
  ∧ nextTickId (this w') = Some 3
  ∧ nextTickMs (this w') = Some Infinity.
Proof. vm_compute. done. Qed.

(** ** [cleanup] and injected timer primitives *)

(** C5: an engine built with injected timer primitives arms its timer with
    the injected [setTimeout]; [cleanup] forgets the handle but cancels it with
    [window.clearTimeout], so the timer stays pending in the injected timer
    system, and when it elapses the tick runs and notifies the subscriber. *)
Theorem cleanup_misses_injected_timer :
  let w := run all_quiet [OpSubscribe (req 1 (Finite 1000)); OpCleanup]
             injected_engine in
  nextTickId (this w) = None
  ∧ pending (injected w) = [(1, Infinity)]
  ∧ (timer_fires all_quiet Injected 1 5%Z w).1.2
    = [notification 5%Z (Finite 1000, 1)].
Proof. vm_compute. done. Qed.

(** C7: with injected timer primitives, subscribe, cleanup, subscribe at
    another interval leaves two timers pending at once: the one cleanup failed
    to cancel and the one the second subscription armed. *)
Theorem two_timers_pending_after_cleanup :
  pending (injected (run all_quiet cleanup_then_subscribe injected_engine))
  = [(1, Infinity); (2, Infinity)].
Proof. vm_compute. done. Qed.

(** ** An unsubscribe function that outlives its bucket *)

(** C2: subscribe callback 1 at 1000 ms, unsubscribe it, subscribe callback 2
    at 1000 ms, invoke the first unsubscribe function again.  Callback 2 is
    subscribed and not unsubscribed, but the bucket map has no key left (and a
    tick notifies nobody). *)
Theorem stale_unsubscribe_drops_live_bucket :
  let w := run all_quiet stale_unsubscribe default_engine in
  live_intervals stale_unsubscribe = [Finite 1000]
  ∧ map_keys (subscriptions (this w)) = []
  ∧ (tick all_quiet 7%Z w).1.2 = []
  ∧ ¬ buckets_are_live_intervals all_quiet stale_unsubscribe.
Proof.
  split_and!; [by vm_compute..|].
  intros H. specialize (H (Finite 1000)). apply proj2 in H.
  assert (Hin : Finite 1000 ∈ live_intervals stale_unsubscribe)
    by (vm_compute; constructor).
  apply H in Hin. vm_compute in Hin. by apply elem_of_nil in Hin.
Qed.

(** C3: invoking the unsubscribe function of callback 1 a second time, after
    callback 2 has subscribed at the same interval, does not leave the engine
    as the single invocation did: callback 2's bucket and the pending timer
    are gone. *)
Theorem second_unsubscribe_is_not_a_no_op :
  let once := run all_quiet unsubscribed_once default_engine in
  let twice := invoke 0 once in
  observable once = ([(Finite 1000, 2)], [(2, Infinity)], [])
  ∧ observable twice = ([], [], [])
  ∧ observable twice ≠ observable once.
Proof. vm_compute. split_and!; done. Qed.

(** ** Dispatch to callbacks that leave the engine alone *)

Lemma live_cons_Some {A} (x : A) l : live (Some x :: l) = x :: live l.
Proof. done. Qed.

Lemma live_cons_None {A} (l : list (option A)) : live (None :: l) = live l.
Proof. done. Qed.

Lemma live_app {A} (l l' : list (option A)) : live (l ++ l') = live l ++ live l'.
Proof. apply omap_app. Qed.

Lemma elem_of_live {A} (x : A) l : x ∈ live l ↔ Some x ∈ l.
Proof.
  unfold live. rewrite list_elem_of_omap. split.
  - intros (e & He & Hx). simpl in Hx. by subst.
  - intros He. by exists (Some x).
Qed.

Lemma registrations_of_cons_Some k a m w :
  registrations_of (Some (k, a) :: m) w
  = ((λ c, (k, c)) <$> live (set_at w a)) ++ registrations_of m w.
Proof. done. Qed.

Lemma registrations_of_cons_None m w :
  registrations_of (None :: m) w = registrations_of m w.
Proof. done. Qed.

Section Inert.

Variable behaviour : Callback → Script.

Lemma until_throw_app rs rs' :
  until_throw behaviour (rs ++ rs')
  = match until_throw behaviour rs with
    | (l, Threw) => (l, Threw)
    | (l, Returned) =>
        ((l ++ (until_throw behaviour rs').1), (until_throw behaviour rs').2)
    end.
Proof.
  induction rs as [|r rs IH]; simpl.
  - by destruct (until_throw behaviour rs').
  - destruct (throws _); [done|]. rewrite IH.
    by destruct (until_throw behaviour rs) as [l []].
Qed.

Lemma until_throw_all_return rs :
  (∀ r, r ∈ rs → throws (behaviour r.2) = false) →
  until_throw behaviour rs = (rs, Returned).
Proof.
  induction rs as [|r rs IH]; intros H; simpl; [done|].
  rewrite (H r) by left.
  rewrite IH; [done|]. intros r' Hr'. apply H. by right.
Qed.

Lemma for_callbacks_inert k a t w l1 l2 :
  getValue w = t →
  set_at w a = l1 ++ l2 →
  (∀ c, c ∈ live l2 → invokes (behaviour c) = []) →
  for_callbacks behaviour k a t (seq (length l1) (length l2)) w
  = (w,
     notification t <$>
       (until_throw behaviour ((λ c, (k, c)) <$> live l2)).1,
     (until_throw behaviour ((λ c, (k, c)) <$> live l2)).2).
Proof.
  intros Ht. revert l1.
  induction l2 as [|e l2 IH]; intros l1 Hset Hinert; [done|].
  cbn [length seq for_callbacks].
  rewrite Hset at 1. rewrite list_lookup_middle by done.
  assert (Hrest :
    for_callbacks behaviour k a t (seq (S (length l1)) (length l2)) w
    = (w,
       notification t <$>
         (until_throw behaviour ((λ c, (k, c)) <$> live l2)).1,
       (until_throw behaviour ((λ c, (k, c)) <$> live l2)).2)).
  { specialize (IH (l1 ++ [e])).
    rewrite length_app, Nat.add_1_r in IH. apply IH.
    - by rewrite <- app_assoc.
    - intros c Hc. apply Hinert. destruct e; [by right|done]. }
  destruct e as [c|]; [|exact Hrest].
  rewrite live_cons_Some, fmap_cons. simpl.
  unfold call. rewrite (Hinert c) by left. simpl.
  destruct (throws (behaviour c)); simpl.
  { unfold notification. simpl. by rewrite Ht. }
  rewrite Hrest.
  destruct (until_throw _ _) as [l o]. simpl.
  unfold notification at 2. simpl. by rewrite Ht.
Qed.

Lemma for_subGroups_inert t w l1 l2 :
  getValue w = t →
  subscriptions (this w) = l1 ++ l2 →
  (∀ r, r ∈ registrations_of l2 w → invokes (behaviour r.2) = []) →
  for_subGroups behaviour t (seq (length l1) (length l2)) w
  = (w,
     notification t <$> (until_throw behaviour (registrations_of l2 w)).1,
     (until_throw behaviour (registrations_of l2 w)).2).
Proof.
  intros Ht. revert l1.
  induction l2 as [|e l2 IH]; intros l1 Hsubs Hinert; [done|].
  cbn [length seq for_subGroups].
  rewrite Hsubs at 1. rewrite list_lookup_middle by done.
  assert (Hrest :
    (∀ r, r ∈ registrations_of l2 w → invokes (behaviour r.2) = []) →
    for_subGroups behaviour t (seq (S (length l1)) (length l2)) w
    = (w,
       notification t <$> (until_throw behaviour (registrations_of l2 w)).1,
       (until_throw behaviour (registrations_of l2 w)).2)).
  { intros Hinert'. specialize (IH (l1 ++ [e])).
    rewrite length_app, Nat.add_1_r in IH. apply IH; [|done].
    by rewrite <- app_assoc. }
  destruct e as [[k a]|].
  2:{ rewrite registrations_of_cons_None in *. auto. }
  rewrite registrations_of_cons_Some in *.
  pose proof (for_callbacks_inert k a t w [] (set_at w a) Ht eq_refl) as Hin.
  simpl in Hin. rewrite Hin; clear Hin.
  2:{ intros c Hc. apply (Hinert (k, c)).
      apply elem_of_app; left. by apply list_elem_of_fmap_2. }
  rewrite until_throw_app.
  destruct (until_throw behaviour ((λ c, (k, c)) <$> live (set_at w a)))
    as [l [|]]; simpl; [|done].
  rewrite Hrest.
  2:{ intros r Hr. apply Hinert. apply elem_of_app. by right. }
  by rewrite fmap_app.
Qed.

(** A tick in which no registered callback touches the engine: the new
    snapshot is stored, everybody up to and including the first callback
    that throws is notified with it, in iteration order, and nothing else
    in the engine changes. *)
Lemma tick_inert t w :
  (∀ r, r ∈ registrations w → invokes (behaviour r.2) = []) →
  tick behaviour t w
  = (with_this (set_latestTime t) w,
     notification t <$> (until_throw behaviour (registrations w)).1,
     (until_throw behaviour (registrations w)).2).
Proof.
  intros Hinert. unfold tick.
  apply (for_subGroups_inert t (with_this (set_latestTime t) w) []); done.
Qed.

End Inert.

Lemma until_throw_first behaviour before r after :
  Forall (λ r', throws (behaviour r'.2) = false) before →
  throws (behaviour r.2) = true →
  until_throw behaviour (before ++ r :: after) = (before ++ [r], Threw).
Proof.
  intros Hbefore Hr. rewrite until_throw_app.
  rewrite until_throw_all_return.
  2:{ rewrite Forall_forall in Hbefore. intros r' Hr'. exact (Hbefore r' Hr'). }
  simpl. by rewrite Hr.
Qed.

Lemma tick_quiet behaviour t w :
  Forall (λ r, behaviour r.2 = quiet) (registrations w) →
  reg <$> (tick behaviour t w).1.2 = registrations w
  ∧ (tick behaviour t w).2 = Returned.
Proof.
  intros Hquiet. rewrite Forall_forall in Hquiet.
  rewrite tick_inert by (intros r Hr; by rewrite (Hquiet r Hr)).
  rewrite until_throw_all_return by (intros r Hr; by rewrite (Hquiet r Hr)).
  simpl. split; [|done]. rewrite <- list_fmap_compose.
  rewrite <- (list_fmap_id (registrations w)) at 2.
  apply list_fmap_ext. by intros ? [].
Qed.

(** ** Delivery faults *)


(** ** Deletions while the tick iterates *)

Lemma blanked_refl {A} (l : list (option A)) : blanked l l.
Proof. apply Forall2_same_length_lookup_2; [done|]. intros; simplify_eq; auto. Qed.

Lemma blanked_trans {A} (l1 l2 l3 : list (option A)) :
  blanked l1 l2 → blanked l2 l3 → blanked l1 l3.
Proof.
  unfold blanked. intros H12 H23.
  eapply Forall2_trans; [|done..].
  simpl. intros e1 e2 e3 [->| ->] [->| ->]; auto.
Qed.


Lemma blanked_lookup {A} (l l' : list (option A)) i x :
  blanked l l' → l' !! i = Some (Some x) → l !! i = Some (Some x).
Proof.
  intros H Hl'.
  destruct (Forall2_lookup_r _ _ _ _ _ H Hl') as (e & He & [?|?]); by simplify_eq.
Qed.

Lemma blanked_live {A} (l l' : list (option A)) :
  blanked l l' → live l' `sublist_of` live l.
Proof.
  induction 1 as [|e e' l l' [->| ->] _ IH]; simpl; [done|..].
  - destruct e; simpl; [by apply sublist_skip|done].
  - destruct e; simpl; [by apply sublist_cons|done].
Qed.

Lemma pick_cons {A} (l : list (option A)) j ps :
  pick l (j :: ps)
  = match l !! j ≫= id with Some x => x :: pick l ps | None => pick l ps end.
Proof. done. Qed.

Lemma blanked_pick {A} (l l' : list (option A)) ps :
  blanked l l' → pick l' ps `sublist_of` pick l ps.
Proof.
  intros H. induction ps as [|j ps IH]; [done|].
  rewrite !pick_cons.
  destruct (l' !! j) as [[x|]|] eqn:Hj; simpl.
  - rewrite (blanked_lookup _ _ _ _ H Hj). simpl. by apply sublist_skip.
  - destruct (l !! j ≫= id); [by apply sublist_cons|done].
  - destruct (l !! j ≫= id); [by apply sublist_cons|done].
Qed.

Lemma pick_seq {A} (l1 l2 : list (option A)) :
  pick (l1 ++ l2) (seq (length l1) (length l2)) = live l2.
Proof.
  revert l1. induction l2 as [|e l2 IH]; intros l1; [done|].
  cbn [length seq]. rewrite pick_cons.
  rewrite list_lookup_middle by done.
  specialize (IH (l1 ++ [e])).
  rewrite length_app, Nat.add_1_r, <- app_assoc in IH.
  simpl in IH. rewrite IH. by destruct e.
Qed.

Lemma pick_all {A} (l : list (option A)) : pick l (seq 0 (length l)) = live l.
Proof. apply (pick_seq [] l). Qed.

Lemma blanked_set_delete (s : JSSet) c : blanked s (set_delete s c).
Proof.
  unfold blanked, set_delete. apply Forall2_fmap_r, Forall_Forall2_diag.
  apply Forall_forall. intros e _. simpl. case_decide; auto.
Qed.

Lemma blanked_map_delete (m : JSMap) k : blanked m (map_delete m k).
Proof.
  unfold blanked, map_delete. apply Forall2_fmap_r, Forall_Forall2_diag.
  apply Forall_forall. intros [[k' a]|] _; simpl; [case_decide|]; auto.
Qed.

Lemma shrinks_refl w : shrinks w w.
Proof.
  split_and!; [apply blanked_refl| |done].
  apply Forall_Forall2_diag, Forall_forall. intros; apply blanked_refl.
Qed.

Lemma shrinks_trans w1 w2 w3 : shrinks w1 w2 → shrinks w2 w3 → shrinks w1 w3.
Proof.
  intros (Hm & Hh & Hc) (Hm' & Hh' & Hc'). split_and!.
  - by eapply blanked_trans.
  - eapply Forall2_trans; [|done..]. apply @blanked_trans.
  - congruence.
Qed.

Lemma shrinks_set_at w w' a : shrinks w w' → blanked (set_at w a) (set_at w' a).
Proof.
  intros (_ & Hh & _). unfold set_at.
  destruct (heap w !! a) as [s|] eqn:Hs.
  - destruct (Forall2_lookup_l _ _ _ _ _ Hh Hs) as (s' & -> & ?). done.
  - assert (heap w' !! a = None) as ->; [|constructor].
    apply lookup_ge_None. apply lookup_ge_None in Hs.
    by rewrite <- (Forall2_length _ _ _ Hh).
Qed.

Lemma shrinks_scheduleNextTick w : shrinks w (scheduleNextTick w).
Proof.
  unfold shrinks.
  rewrite subscriptions_scheduleNextTick, heap_scheduleNextTick,
    closures_scheduleNextTick.
  apply shrinks_refl.
Qed.

Lemma shrinks_unsubscribe u w : shrinks w (unsubscribe u w).
Proof.
  unfold unsubscribe.
  set (w1 := with_heap _ w).
  assert (H1 : shrinks w w1).
  { split_and!; [apply blanked_refl| |done]. simpl.
    apply Forall2_same_length_lookup_2; [by rewrite length_alter|].
    intros a s s' Hs Hs'.
    destruct (decide (a = subGroup u)) as [->|Hne].
    - rewrite list_lookup_alter_eq, Hs in Hs'. simplify_eq/=.
      apply blanked_set_delete.
    - rewrite list_lookup_alter_ne in Hs' by done. simplify_eq.
      apply blanked_refl. }
  destruct (_ =? _); [|done].
  eapply shrinks_trans; [exact H1|].
  eapply shrinks_trans; [|apply shrinks_scheduleNextTick].
  split_and!; [apply blanked_map_delete|apply (shrinks_refl w1)|done].
Qed.

Lemma shrinks_invoke i w : shrinks w (invoke i w).
Proof.
  unfold invoke. destruct (_ !! _); [apply shrinks_unsubscribe|apply shrinks_refl].
Qed.

Lemma shrinks_invokes idxs w : shrinks w (foldl (λ w i, invoke i w) w idxs).
Proof.
  revert w. induction idxs as [|i idxs IH]; intros w; simpl;
    [apply shrinks_refl|].
  eapply shrinks_trans; [apply shrinks_invoke|apply IH].
Qed.

Lemma members_shrinks w w' e :
  shrinks w w' → members w' e `sublist_of` members w e.
Proof.
  intros H. unfold members. apply fmap_sublist, blanked_live.
  by apply shrinks_set_at.
Qed.

Lemma picked_members_shrinks w w' ps :
  shrinks w w' →
  (pick (subscriptions (this w')) ps ≫= members w')
    `sublist_of` (pick (subscriptions (this w)) ps ≫= members w).
Proof.
  intros H. pose proof H as (Hm & _ & _).
  induction ps as [|i ps IH]; [done|].
  rewrite !pick_cons.
  destruct (subscriptions (this w') !! i) as [[e|]|] eqn:Hi; simpl.
  - rewrite (blanked_lookup _ _ _ _ Hm Hi). simpl.
    apply sublist_app; [by apply members_shrinks|done].
  - destruct (subscriptions (this w) !! i ≫= id); [|done].
    simpl. by apply sublist_inserts_l.
  - destruct (subscriptions (this w) !! i ≫= id); [|done].
    simpl. by apply sublist_inserts_l.
Qed.

Lemma registrations_pick w :
  registrations w
  = pick (subscriptions (this w)) (seq 0 (length (subscriptions (this w))))
      ≫= members w.
Proof. by rewrite pick_all. Qed.

Section Shrinking.

Variable behaviour : Callback → Script.

Lemma for_callbacks_shrinks k a t ps w w' ns o :
  for_callbacks behaviour k a t ps w = (w', ns, o) →
  shrinks w w'
  ∧ reg <$> ns `sublist_of` (λ c, (k, c)) <$> pick (set_at w a) ps.
Proof.
  revert w w' ns o. induction ps as [|j ps IH]; intros w w' ns o Hrun.
  { simpl in Hrun. simplify_eq. split; [apply shrinks_refl|done]. }
  cbn [for_callbacks] in Hrun. rewrite pick_cons.
  destruct (set_at w a !! j) as [[c|]|] eqn:Hj; simpl;
    [|by eapply IH..].
  unfold call in Hrun.
  pose proof (shrinks_invokes (invokes (behaviour c)) w) as H1.
  set (w1 := foldl _ w _) in *.
  destruct (throws (behaviour c)).
  { simplify_eq. split; [done|]. simpl.
    apply sublist_skip, sublist_nil_l. }
  destruct (for_callbacks _ _ _ _ _ w1) as [[w2 ns2] o2] eqn:Hrest.
  simplify_eq. destruct (IH _ _ _ _ Hrest) as [H2 Hsub].
  split; [by eapply shrinks_trans|].
  simpl. apply sublist_skip. etrans; [exact Hsub|].
  apply fmap_sublist, blanked_pick. by apply shrinks_set_at.
Qed.

Lemma for_subGroups_shrinks t ps w w' ns o :
  for_subGroups behaviour t ps w = (w', ns, o) →
  shrinks w w'
  ∧ reg <$> ns
      `sublist_of` (pick (subscriptions (this w)) ps ≫= members w).
Proof.
  revert w w' ns o. induction ps as [|i ps IH]; intros w w' ns o Hrun.
  { simpl in Hrun. simplify_eq. split; [apply shrinks_refl|done]. }
  cbn [for_subGroups] in Hrun. rewrite pick_cons.
  destruct (subscriptions (this w) !! i) as [[[k a]|]|] eqn:Hi; simpl;
    [|by eapply IH..].
  destruct (for_callbacks _ _ _ _ _ w) as [[w1 ns1] o1] eqn:Hinner.
  apply for_callbacks_shrinks in Hinner as [H1 Hsub1].
  rewrite pick_all in Hsub1.
  destruct o1.
  2:{ simplify_eq. split; [done|].
      rewrite <- (app_nil_r (reg <$> ns)). apply sublist_app; [done|].
      apply sublist_nil_l. }
  destruct (for_subGroups _ _ _ w1) as [[w2 ns2] o2] eqn:Hrest.
  simplify_eq. destruct (IH _ _ _ _ Hrest) as [H2 Hsub2].
  split; [by eapply shrinks_trans|].
  rewrite fmap_app. apply sublist_app; [done|].
  etrans; [exact Hsub2|]. by apply picked_members_shrinks.
Qed.

Lemma tick_shrinks t w w' ns o :
  tick behaviour t w = (w', ns, o) →
  shrinks w w' ∧ reg <$> ns `sublist_of` registrations w.
Proof.
  unfold tick. intros Hrun.
  apply for_subGroups_shrinks in Hrun as [H Hsub]. split; [exact H|].
  by rewrite registrations_pick.
Qed.





End Shrinking.

(** ** The bucket map and the [Set] objects *)

Lemma map_get_lookup (m : JSMap) k a :
  map_get m k = Some a → ∃ i, m !! i = Some (Some (k, a)).
Proof.
  induction m as [|[[k' a']|] m IH]; simpl; [done|..].
  - case_decide as Hd; intros Hg.
    + simplify_eq. by exists 0.
    + destruct (IH Hg) as [i Hi]. by exists (S i).
  - intros Hg. destruct (IH Hg) as [i Hi]. by exists (S i).
Qed.

Lemma map_get_elem_of (m : JSMap) k a :
  map_get m k = Some a → (k, a) ∈ live m.
Proof.
  intros H. apply map_get_lookup in H as [i Hi].
  apply elem_of_live. by eapply list_elem_of_lookup_2.
Qed.

Lemma map_get_None (m : JSMap) k : map_get m k = None ↔ k ∉ map_keys m.
Proof.
  unfold map_keys.
  induction m as [|[[k' a']|] m IH]; cbn [map_get].
  - split; [intros _; apply not_elem_of_nil|done].
  - rewrite live_cons_Some, fmap_cons, not_elem_of_cons. simpl.
    case_decide as Hd.
    + split; [done|]. intros [? _]. by subst.
    + rewrite IH. split; [by auto|]. by intros [_ ?].
  - by rewrite live_cons_None.
Qed.

Lemma map_has_get (m : JSMap) k : map_has m k = true ↔ is_Some (map_get m k).
Proof.
  unfold map_has. rewrite bool_decide_eq_true.
  destruct (map_get m k) as [a|] eqn:Hget.
  - split; [by eauto|]. intros _.
    apply map_get_elem_of in Hget.
    unfold map_keys. apply list_elem_of_fmap. by exists (k, a).
  - split; [|by intros [??]]. intros Hin.
    by apply map_get_None in Hget.
Qed.

Lemma elem_of_map_get (m : JSMap) k a :
  NoDup (map_keys m) → (k, a) ∈ live m → map_get m k = Some a.
Proof.
  unfold map_keys.
  induction m as [|[[k' a']|] m IH]; cbn [map_get].
  - intros _ H. by apply elem_of_nil in H.
  - rewrite live_cons_Some, fmap_cons. simpl.
    intros [Hk' Hnd]%NoDup_cons [Heq|Hin]%elem_of_cons.
    + simplify_eq. by rewrite decide_True.
    + case_decide; [|by apply IH]. subst k'.
      destruct Hk'. apply list_elem_of_fmap. by exists (k, a).
  - rewrite live_cons_None. apply IH.
Qed.

Lemma lookup_map_get (m : JSMap) i k a :
  NoDup (map_keys m) → m !! i = Some (Some (k, a)) → map_get m k = Some a.
Proof.
  intros Hnd Hi. apply elem_of_map_get; [done|].
  apply elem_of_live. by eapply list_elem_of_lookup_2.
Qed.

Lemma map_keys_blanked (m m' : JSMap) :
  blanked m m' → map_keys m' `sublist_of` map_keys m.
Proof. intros H. unfold map_keys. by apply fmap_sublist, blanked_live. Qed.

Lemma map_get_blanked (m m' : JSMap) k a :
  NoDup (map_keys m) → blanked m m' →
  map_get m' k = Some a → map_get m k = Some a.
Proof.
  intros Hnd Hbl [i Hi]%map_get_lookup.
  eapply lookup_map_get; [done|]. by eapply blanked_lookup.
Qed.

Lemma map_get_delete_ne (m : JSMap) k k' :
  k' ≠ k → map_get (map_delete m k') k = map_get m k.
Proof.
  intros Hne. induction m as [|[[k0 a0]|] m IH]; simpl; [done| |done].
  destruct (decide (k0 = k')) as [->|Hk0]; simpl.
  - by rewrite decide_False.
  - by rewrite IH.
Qed.

Lemma map_get_app_None (m : JSMap) k e :
  map_get m k = None → map_get (m ++ [Some e]) k = map_get [Some e] k.
Proof.
  induction m as [|[[k0 a0]|] m IH]; simpl; [done| |done].
  by case_decide.
Qed.

Lemma map_get_app_Some (m m' : JSMap) k a :
  map_get m k = Some a → map_get (m ++ m') k = Some a.
Proof.
  induction m as [|[[k0 a0]|] m IH]; simpl; [done| |done].
  by case_decide.
Qed.

Lemma not_elem_of_set_delete (s : JSSet) c : c ∉ live (set_delete s c).
Proof.
  rewrite elem_of_live. unfold set_delete.
  intros (e & He & _)%list_elem_of_fmap. by case_decide.
Qed.

Lemma elem_of_set_delete_ne (s : JSSet) c c' :
  c ≠ c' → c ∈ live s → c ∈ live (set_delete s c').
Proof.
  rewrite !elem_of_live. intros Hne Hin. unfold set_delete.
  apply list_elem_of_fmap. exists (Some c). split; [|done].
  rewrite decide_False; [done|]. congruence.
Qed.

Lemma set_has_elem_of (s : JSSet) c : set_has s c = true ↔ c ∈ live s.
Proof. unfold set_has. apply bool_decide_eq_true. Qed.

Lemma elem_of_set_add (s : JSSet) c : c ∈ live (set_add s c).
Proof.
  unfold set_add. destruct (set_has s c) eqn:Hhas.
  - by apply set_has_elem_of.
  - rewrite live_app. apply elem_of_app. right. left.
Qed.

Lemma NoDup_set_add (s : JSSet) c : NoDup (live s) → NoDup (live (set_add s c)).
Proof.
  intros Hnd. unfold set_add. destruct (set_has s c) eqn:Hhas; [done|].
  rewrite live_app. apply NoDup_app. split_and!; [done| |apply NoDup_singleton].
  intros x Hx ->%list_elem_of_singleton.
  apply set_has_elem_of in Hx. congruence.
Qed.

Lemma set_at_alter w f a a' :
  set_at (with_heap (alter f a) w) a'
  = if decide (a = a' ∧ a < length (heap w)) then f (set_at w a')
    else set_at w a'.
Proof.
  unfold set_at. simpl. case_decide as Hd.
  - destruct Hd as [-> Hlt]. rewrite list_lookup_alter_eq.
    apply lookup_lt_is_Some in Hlt as [s ->]. done.
  - destruct (decide (a = a')) as [->|Hne].
    + rewrite list_lookup_alter_eq.
      rewrite (proj2 (lookup_ge_None _ _)); [done|]. lia.
    + by rewrite list_lookup_alter_ne.
Qed.

(** ** What an unsubscribe function removes, and what it leaves *)

Lemma set_at_unsubscribe_frame u w a :
  a ≠ subGroup u → set_at (unsubscribe u w) a = set_at w a.
Proof.
  intros Hne. unfold unsubscribe.
  assert (Hfr : set_at (with_heap (alter (λ s, set_delete s (callback (request u)))
                  (subGroup u)) w) a = set_at w a).
  { rewrite set_at_alter. rewrite decide_False; [done|].
    intros [? _]. congruence. }
  destruct (_ =? _); [|done].
  by rewrite set_at_scheduleNextTick.
Qed.

Lemma set_at_unsubscribe u w :
  subGroup u < length (heap w) →
  set_at (unsubscribe u w) (subGroup u)
  = set_delete (set_at w (subGroup u)) (callback_of u).
Proof.
  intros Hlt. unfold unsubscribe.
  assert (Hfr : set_at (with_heap (alter (λ s, set_delete s (callback (request u)))
                  (subGroup u)) w) (subGroup u)
                = set_delete (set_at w (subGroup u)) (callback_of u)).
  { rewrite set_at_alter. by rewrite decide_True. }
  destruct (_ =? _); [|done].
  by rewrite set_at_scheduleNextTick.
Qed.

(** After an unsubscribe function has run, its callback is not in its [Set]. *)
Lemma unsubscribe_gone u w :
  callback_of u ∉ live (set_at (unsubscribe u w) (subGroup u)).
Proof.
  destruct (decide (subGroup u < length (heap w))) as [Hlt|Hge].
  - rewrite set_at_unsubscribe by done. apply not_elem_of_set_delete.
  - pose proof (shrinks_unsubscribe u w) as (_ & Hh & _).
    apply Forall2_length in Hh. unfold set_at.
    rewrite (proj2 (lookup_ge_None _ _)); [apply not_elem_of_nil|lia].
Qed.



Lemma elem_of_after_delete w u a c :
  (subGroup u = a → callback_of u ≠ c) →
  c ∈ live (set_at w a) →
  c ∈ live (set_at (with_heap (alter (λ s, set_delete s (callback (request u)))
                                 (subGroup u)) w) a).
Proof.
  intros Hcb Hc. rewrite set_at_alter. case_decide as Hd; [|done].
  destruct Hd as [Heq _]. apply elem_of_set_delete_ne; [|done].
  intros ->. by apply Hcb.
Qed.

(** An unsubscribe function that spares a registration leaves it active. *)
Lemma unsubscribe_spares u w k a c :
  spares u k a c →
  bucket w k = Some a → c ∈ live (set_at w a) →
  bucket (unsubscribe u w) k = Some a ∧ c ∈ live (set_at (unsubscribe u w) a).
Proof.
  intros [Hcb Hkey] Hb Hc.
  pose proof (elem_of_after_delete w u a c Hcb Hc) as Hc1.
  unfold unsubscribe, bucket in *.
  set (w1 := with_heap _ w) in *.
  destruct (_ =? _) eqn:Hsize; [|done].
  rewrite subscriptions_scheduleNextTick, set_at_scheduleNextTick. simpl.
  split; [|done].
  rewrite map_get_delete_ne; [done|].
  intros Heq. apply Hkey in Heq. subst a.
  apply Nat.eqb_eq in Hsize. unfold set_size in Hsize.
  apply length_zero_iff_nil in Hsize. rewrite Hsize in Hc1.
  by apply elem_of_nil in Hc1.
Qed.


Section Removal.

Variable behaviour : Callback → Script.





End Removal.

(** ** Well-formedness is kept by every operation *)

Lemma wf_new_TimeSync initialTime st ct : wf (new_TimeSync initialTime st ct).
Proof. split; [apply NoDup_nil_2|apply Forall_nil_2|done..]. Qed.

Lemma wf_shrinks w w' : shrinks w w' → wf w → wf w'.
Proof.
  intros (Hm & Hh & _) [Hkeys Hsets Haddr Hinj]. split.
  - eapply sublist_NoDup; [exact Hkeys|by apply map_keys_blanked].
  - apply Forall_forall. intros s' [a Ha]%list_elem_of_lookup_1.
    destruct (Forall2_lookup_r _ _ _ _ _ Hh Ha) as (s & Hs & Hbl).
    eapply sublist_NoDup; [|by apply blanked_live].
    by eapply (Forall_lookup_1 _ _ _ _ Hsets).
  - intros k a Hb. rewrite <- (Forall2_length _ _ _ Hh).
    apply (Haddr k). by eapply map_get_blanked.
  - intros k1 k2 a H1 H2. apply (Hinj k1 k2 a); by eapply map_get_blanked.
Qed.

Lemma wf_frame w w' :
  subscriptions (this w') = subscriptions (this w) → heap w' = heap w →
  wf w → wf w'.
Proof.
  intros Hm Hh [Hkeys Hsets Haddr Hinj].
  split; unfold bucket in *; rewrite ?Hm, ?Hh; done.
Qed.

Lemma wf_cleanup w : wf w → wf (cleanup w).
Proof.
  unfold cleanup. destruct (nextTickId (this w)); [|done].
  by apply wf_frame.
Qed.

Lemma subscribe_existing r w a :
  map_get (subscriptions (this w)) (maxUpdateIntervalMs r) = Some a →
  subscribe r w
  = ({| this := this w;
        heap := alter (λ s, set_add s (callback r)) a (heap w);
        window := window w;
        injected := injected w;
        closures := closures w ++ [{| subGroup := a; request := r |}] |},
     {| subGroup := a; request := r |}).
Proof.
  intros Hget. unfold subscribe. rewrite Hget.
  by rewrite (proj2 (map_has_get _ _) (mk_is_Some _ _ Hget)).
Qed.

Lemma subscribe_new r w :
  map_get (subscriptions (this w)) (maxUpdateIntervalMs r) = None →
  let sg := length (heap w) in
  (subscribe r w).2 = {| subGroup := sg; request := r |}
  ∧ subscriptions (this (subscribe r w).1)
    = subscriptions (this w) ++ [Some (maxUpdateIntervalMs r, sg)]
  ∧ heap (subscribe r w).1
    = alter (λ s, set_add s (callback r)) sg (heap w ++ [[]])
  ∧ closures (subscribe r w).1
    = closures w ++ [{| subGroup := sg; request := r |}].
Proof.
  intros Hget sg. unfold subscribe, new_Set. rewrite Hget. simpl.
  assert (Hhas : map_has (subscriptions (this w)) (maxUpdateIntervalMs r) = false).
  { apply not_true_is_false. rewrite map_has_get, Hget. by intros [??]. }
  rewrite Hhas. simpl.
  rewrite subscriptions_scheduleNextTick, heap_scheduleNextTick,
    closures_scheduleNextTick. simpl.
  unfold map_set. by rewrite Hhas.
Qed.

Lemma map_keys_snoc (m : JSMap) k a :
  map_keys (m ++ [Some (k, a)]) = map_keys m ++ [k].
Proof. unfold map_keys. by rewrite live_app, fmap_app. Qed.

Lemma wf_subscribe r w : wf w → wf (subscribe r w).1.
Proof.
  intros [Hkeys Hsets Haddr Hinj].
  destruct (map_get (subscriptions (this w)) (maxUpdateIntervalMs r))
    as [a|] eqn:Hget.
  - rewrite (subscribe_existing r w a Hget). split; simpl.
    + done.
    + apply Forall_alter; [done|]. intros s _. apply NoDup_set_add.
    + intros k a'. rewrite length_alter. apply Haddr.
    + done.
  - destruct (subscribe_new r w Hget) as (_ & Hm & Hh & _).
    assert (Hb : ∀ k a, map_get (subscriptions (this w)
                   ++ [Some (maxUpdateIntervalMs r, length (heap w))]) k = Some a →
                 bucket w k = Some a
                 ∨ (bucket w k = None ∧ k = maxUpdateIntervalMs r
                    ∧ a = length (heap w))).
    { intros k a. unfold bucket.
      destruct (map_get (subscriptions (this w)) k) as [a'|] eqn:Hk.
      - rewrite (map_get_app_Some _ _ _ _ Hk). by left.
      - rewrite (map_get_app_None _ _ _ Hk). simpl.
        case_decide; [|done]. intros [= <-]. by right. }
    split; unfold bucket; rewrite ?Hm, ?Hh.
    + rewrite map_keys_snoc. apply NoDup_app. split_and!; [done| |].
      * intros k Hk ->%list_elem_of_singleton.
        by apply map_get_None in Hget.
      * apply NoDup_singleton.
    + apply Forall_alter; [|intros s _; apply NoDup_set_add].
      apply Forall_app. split; [done|]. repeat constructor.
    + intros k a. rewrite length_alter, length_app. simpl.
      destruct (map_get (subscriptions (this w)) k) as [a'|] eqn:Hk.
      * rewrite (map_get_app_Some _ _ _ _ Hk). intros [= <-].
        specialize (Haddr k a' Hk). lia.
      * rewrite (map_get_app_None _ _ _ Hk). simpl.
        case_decide; [|done]. intros [= <-]. lia.
    + intros k1 k2 a H1 H2.
      destruct (Hb _ _ H1) as [H1'|(_ & -> & ->)];
        destruct (Hb _ _ H2) as [H2'|(_ & -> & Ha)]; try done.
      * by eapply Hinj.
      * subst a. apply Haddr in H1'. lia.
      * apply Haddr in H2'. lia.
Qed.

Lemma wf_invoke i w : wf w → wf (invoke i w).
Proof. apply wf_shrinks, shrinks_invoke. Qed.

Lemma wf_tick behaviour t w : wf w → wf (tick behaviour t w).1.1.
Proof.
  intros Hwf.
  destruct (tick behaviour t w) as [[w' ns] o] eqn:Hrun.
  apply tick_shrinks in Hrun as [Hsh _]. simpl.
  eapply wf_shrinks; [exact Hsh|]. by apply (wf_frame w).
Qed.

Lemma wf_step behaviour w op : wf w → wf (step behaviour w op).
Proof.
  intros Hwf. destruct op; simpl.
  - by apply wf_subscribe.
  - by apply wf_invoke.
  - done.
  - by apply wf_cleanup.
  - unfold timer_fires. destruct (is_pending _ _); [|done].
    apply wf_tick. apply (wf_frame w); [by destruct p..|done].
Qed.

(** Every state the engine can be brought into is well-formed. *)
Lemma wf_run behaviour ops w : wf w → wf (run behaviour ops w).
Proof.
  revert w. induction ops as [|op ops IH]; intros w Hwf; [done|].
  apply IH. by apply wf_step.
Qed.

(** ** Registrations *)

Lemma elem_of_registrations w k c :
  (k, c) ∈ registrations w
  ↔ ∃ a, (k, a) ∈ live (subscriptions (this w)) ∧ c ∈ live (set_at w a).
Proof.
  unfold registrations, registrations_of. rewrite list_elem_of_bind. split.
  - intros ([k' a] & Hc & He). simpl in Hc.
    apply list_elem_of_fmap in Hc as (c' & [= -> ->] & Hc'). by exists a.
  - intros (a & He & Hc). exists (k, a). split; [|done].
    simpl. apply list_elem_of_fmap. by exists c.
Qed.

Lemma registrations_active w k c :
  NoDup (map_keys (subscriptions (this w))) →
  (k, c) ∈ registrations w ↔ active w k c.
Proof.
  intros Hnd. rewrite elem_of_registrations. unfold active, bucket.
  split; intros (a & Ha & Hc); exists a; (split; [|done]).
  - by apply elem_of_map_get.
  - by apply map_get_elem_of.
Qed.

Lemma NoDup_keys_inj (l : list (number * addr)) e1 e2 :
  NoDup (fst <$> l) → e1 ∈ l → e2 ∈ l → e1.1 = e2.1 → e1 = e2.
Proof.
  induction l as [|e l IH]; intros Hnd H1 H2 Heq.
  { by apply elem_of_nil in H1. }
  rewrite fmap_cons in Hnd. apply NoDup_cons in Hnd as [Hnot Hnd].
  apply elem_of_cons in H1 as [->|H1]; apply elem_of_cons in H2 as [->|H2].
  - done.
  - destruct Hnot. rewrite Heq. by apply list_elem_of_fmap_2.
  - destruct Hnot. rewrite <- Heq. by apply list_elem_of_fmap_2.
  - by apply IH.
Qed.

Lemma NoDup_set_at w a : wf w → NoDup (live (set_at w a)).
Proof.
  intros [_ Hsets _]. unfold set_at.
  destruct (heap w !! a) as [s|] eqn:Hs; [|apply NoDup_nil_2].
  by eapply (Forall_lookup_1 _ _ _ _ Hsets).
Qed.

Lemma NoDup_registrations w : wf w → NoDup (registrations w).
Proof.
  intros Hwf. pose proof Hwf as [Hkeys _ _].
  unfold registrations, registrations_of. apply NoDup_bind.
  - intros e1 e2 [k c] H1 H2 Hc1 Hc2.
    apply list_elem_of_fmap in Hc1 as (c1 & [= Hk1 _] & _).
    apply list_elem_of_fmap in Hc2 as (c2 & [= Hk2 _] & _).
    eapply NoDup_keys_inj; [exact Hkeys|done..|congruence].
  - intros e _. apply NoDup_fmap_2; [|by apply NoDup_set_at].
    by intros c1 c2 [= ->].
  - by eapply NoDup_fmap_1.
Qed.

Lemma filter_eq_NoDup {A} `{EqDecision A} (l : list A) x :
  NoDup l → x ∈ l → length (filter (λ y, y = x) l) = 1.
Proof.
  induction l as [|y l IH]; intros Hnd Hin.
  { by apply elem_of_nil in Hin. }
  apply NoDup_cons in Hnd as [Hy Hnd]. rewrite filter_cons.
  apply elem_of_cons in Hin as [->|Hin].
  - rewrite decide_True by done. simpl. f_equal.
    apply length_zero_iff_nil, elem_of_nil_inv.
    intros z [-> Hz]%list_elem_of_filter. done.
  - rewrite decide_False; [by apply IH|]. intros ->. done.
Qed.



(** ** Unsubscribing from inside a callback *)



(** The unsubscribe function of an active subscriber spares every other
    registration. *)
Lemma own_bucket_spares w u k a c :
  wf w →
  bucket w (interval_of u) = Some (subGroup u) →
  bucket w k = Some a →
  (interval_of u, callback_of u) ≠ (k, c) →
  spares u k a c.
Proof.
  intros Hwf Hu Hk Hne. split.
  - intros <- Hc. apply Hne. rewrite Hc. f_equal.
    by apply (wf_inj _ Hwf _ _ (subGroup u)).
  - intros <-. congruence.
Qed.



(** ** Subscribing the same callback twice *)

Lemma alter_fixed {A} (f : A → A) (l : list A) i :
  (∀ x, l !! i = Some x → f x = x) → alter f i l = l.
Proof.
  intros Hfix. apply list_eq. intros j.
  destruct (decide (i = j)) as [->|Hne].
  - rewrite list_lookup_alter_eq.
    destruct (l !! j) as [x|] eqn:Hx; [|done]. simpl. by rewrite Hfix.
  - by rewrite list_lookup_alter_ne.
Qed.

Lemma set_add_member (s : JSSet) c : c ∈ live s → set_add s c = s.
Proof. intros Hc. unfold set_add. by rewrite (proj2 (set_has_elem_of s c) Hc). Qed.

(** After [subscribe], the callback is in the [Set] the returned function
    closes over, and that [Set] is the bucket of the requested interval. *)
Lemma subscribe_active r w :
  wf w →
  bucket (subscribe r w).1 (maxUpdateIntervalMs r)
  = Some (subGroup (subscribe r w).2)
  ∧ callback r ∈ live (set_at (subscribe r w).1 (subGroup (subscribe r w).2))
  ∧ request (subscribe r w).2 = r.
Proof.
  intros Hwf.
  destruct (map_get (subscriptions (this w)) (maxUpdateIntervalMs r))
    as [a|] eqn:Hget.
  - rewrite (subscribe_existing r w a Hget). simpl.
    split_and!; [done| |done].
    change (callback r ∈ live (set_at
      (with_heap (alter (λ s, set_add s (callback r)) a) w) a)).
    rewrite set_at_alter, decide_True; [apply elem_of_set_add|].
    split; [done|]. by apply (wf_addr _ Hwf (maxUpdateIntervalMs r)).
  - destruct (subscribe_new r w Hget) as (Hu & Hm & Hh & _).
    rewrite Hu. simpl. unfold bucket, set_at. rewrite Hm, Hh.
    split_and!; [| |done].
    + rewrite (map_get_app_None _ _ _ Hget). simpl. by rewrite decide_True.
    + rewrite list_lookup_alter_eq, lookup_app_r, Nat.sub_diag by done.
      simpl. left.
Qed.

(** X25: in a well-formed state, calling [subscribe] twice in a row with the
    same callback and interval returns, the second time, a function equal to
    the first and changes neither the engine's fields, nor any [Set], nor the
    timers; the callback is in the bucket of the interval once, so a tick
    whose callbacks just return notifies it exactly once through that
    bucket; and either returned function removes it from that bucket. *)
Theorem subscribe_twice_registers_once behaviour r w newTime :
  wf w →
  let w1 := (subscribe r w).1 in
  let u1 := (subscribe r w).2 in
  let w2 := (subscribe r w1).1 in
  let u2 := (subscribe r w1).2 in
  let k := maxUpdateIntervalMs r in
  let c := callback r in
  u2 = u1
  ∧ this w2 = this w1 ∧ heap w2 = heap w1
  ∧ window w2 = window w1 ∧ injected w2 = injected w1
  ∧ active w2 k c
  ∧ length (filter (λ x, x = (k, c)) (registrations w2)) = 1
  ∧ (Forall (λ x, behaviour x.2 = quiet) (registrations w2) →
     times_notified k c (tick behaviour newTime w2).1.2 = 1)
  ∧ ¬ active (unsubscribe u1 w2) k c
  ∧ ¬ active (unsubscribe u2 w2) k c.
Proof.
  intros Hwf w1 u1 w2 u2 k c.
  assert (Hwf1 : wf w1) by (by apply wf_subscribe).
  assert (Hwf2 : wf w2) by (by apply wf_subscribe).
  destruct (subscribe_active r w Hwf) as (Hb1 & Hc1 & Hr1).
  fold w1 u1 k c in Hb1, Hc1, Hr1.
  pose proof (subscribe_existing r w1 (subGroup u1) Hb1) as Hsecond.
  assert (Hheap : alter (λ s, set_add s c) (subGroup u1) (heap w1) = heap w1).
  { apply alter_fixed. intros s Hs. apply set_add_member.
    unfold set_at in Hc1. by rewrite Hs in Hc1. }
  fold c in Hsecond. rewrite Hheap in Hsecond.
  assert (Hu : u2 = u1).
  { unfold u2. rewrite Hsecond. simpl.
    destruct u1 as [sg1 r1]. simpl in *. by subst r1. }
  assert (H2 : this w2 = this w1 ∧ heap w2 = heap w1
               ∧ window w2 = window w1 ∧ injected w2 = injected w1).
  { unfold w2. by rewrite Hsecond. }
  destruct H2 as (Hthis & Hh & Hwin & Hinj).
  assert (Hact : active w2 k c).
  { exists (subGroup u1). unfold bucket, set_at. by rewrite Hthis, Hh. }
  assert (Hin : (k, c) ∈ registrations w2).
  { apply registrations_active; [apply Hwf2|done]. }
  assert (Hgone : ¬ active (unsubscribe u1 w2) k c).
  { intros (a & Hb & Hc).
    pose proof (shrinks_unsubscribe u1 w2) as Hsh.
    eapply (map_get_blanked _ _ _ _ (wf_keys _ Hwf2) (proj1 Hsh)) in Hb.
    rewrite Hthis in Hb. unfold bucket in Hb1.
    assert (a = subGroup u1) as -> by congruence.
    apply (unsubscribe_gone u1 w2).
    unfold callback_of. by rewrite Hr1. }
  split_and!; [done..| | | |done|by rewrite Hu].
  - done.
  - apply filter_eq_NoDup; [by apply NoDup_registrations|done].
  - intros Hquiet. unfold times_notified.
    rewrite (proj1 (tick_quiet behaviour newTime w2 Hquiet)).
    apply filter_eq_NoDup; [by apply NoDup_registrations|done].
Qed.

Lemma subscribe_twice_registers_once_witness :
  let w := run all_quiet three_subscribers default_engine in
  let r := req 3 (Finite 1000) in
  let w1 := (subscribe r w).1 in
  let w2 := (subscribe r w1).1 in
  wf w
  ∧ (subscribe r w1).2 = (subscribe r w).2
  ∧ heap w2 = heap w1
  ∧ length (filter (λ x, x = (Finite 1000, 3)) (registrations w2)) = 1
  ∧ ¬ active (unsubscribe (subscribe r w).2 w2) (Finite 1000) 3.
Proof.
  intros w r w1 w2.
  assert (Hwf : wf w) by apply wf_run, wf_new_TimeSync.
  destruct (subscribe_twice_registers_once all_quiet r w 7%Z Hwf)
    as (H1 & _ & H3 & _ & _ & _ & H7 & _ & H9 & _).
  split_and!; [exact Hwf|exact H1|exact H3|exact H7|exact H9].
Defined.

(** ** One timer at a time, on [window]'s primitives *)

Section Preservation.

Variable behaviour : Callback → Script.
Variable P : World → Prop.
Hypothesis P_unsubscribe : ∀ u w, P w → P (unsubscribe u w).
Hypothesis P_latestTime : ∀ t w, P w → P (with_this (set_latestTime t) w).

Lemma invokes_preserves idxs w :
  P w → P (foldl (λ w i, invoke i w) w idxs).
Proof.
  revert w. induction idxs as [|i idxs IH]; intros w HP; [done|].
  simpl. apply IH. unfold invoke. destruct (_ !! _); auto.
Qed.

Lemma for_callbacks_preserves k a t ps w :
  P w → P (for_callbacks behaviour k a t ps w).1.1.
Proof.
  revert w. induction ps as [|j ps IH]; intros w HP; [done|].
  cbn [for_callbacks].
  destruct (set_at w a !! j) as [[c|]|]; [|by apply IH..].
  unfold call.
  pose proof (invokes_preserves (invokes (behaviour c)) w HP) as HP1.
  destruct (throws _); [done|].
  specialize (IH _ HP1).
  by destruct (for_callbacks _ _ _ _ _ _) as [[??]?].
Qed.

Lemma for_subGroups_preserves t ps w :
  P w → P (for_subGroups behaviour t ps w).1.1.
Proof.
  revert w. induction ps as [|i ps IH]; intros w HP; [done|].
  cbn [for_subGroups].
  destruct (subscriptions (this w) !! i) as [[[k a]|]|]; [|by apply IH..].
  pose proof (for_callbacks_preserves k a t (seq 0 (length (set_at w a))) w HP)
    as HP1.
  destruct (for_callbacks _ _ _ _ _ w) as [[w1 ns1] []]; [|exact HP1].
  simpl in HP1. specialize (IH _ HP1).
  by destruct (for_subGroups _ _ _ w1) as [[??]?].
Qed.

(** Whatever [unsubscribe] preserves, and does not depend on the stored
    snapshot, is preserved by a tick. *)
Lemma tick_preserves t w : P w → P (tick behaviour t w).1.1.
Proof. intros HP. unfold tick. by apply for_subGroups_preserves, P_latestTime. Qed.

End Preservation.

Lemma window_only_scheduleNextTick w :
  window_only w → window_only (scheduleNextTick w).
Proof.
  unfold window_only.
  by rewrite setTimeout_scheduleNextTick, clearTimeout_scheduleNextTick.
Qed.

Lemma one_timer_scheduleNextTick w :
  window_only w → one_timer w → one_timer (scheduleNextTick w).
Proof.
  intros [Hst Hct] [Hinj Hwin]. rewrite scheduleNextTick_spec.
  rewrite Hst, Hct. cbn [with_timers timers_of window].
  assert (Hclear : pending (timers_clear (nextTickId (this w)) (window w)) = []).
  { destruct Hwin as [Hnil|(id & d & Hone & Hid)].
    - unfold timers_clear. destruct (nextTickId (this w)); [|done].
      simpl. by rewrite Hnil.
    - rewrite Hid. simpl. rewrite Hone.
      rewrite filter_cons, decide_False; [done|]. simpl. by intros []. }
  destruct (strict_eq _ _); split; simpl; try done.
  - by left.
  - right. eexists _, _. split; [|done]. by rewrite Hclear.
Qed.

Lemma timers_unsubscribe u w :
  window_only w ∧ one_timer w →
  window_only (unsubscribe u w) ∧ one_timer (unsubscribe u w).
Proof.
  intros [Hw H1]. unfold unsubscribe. destruct (_ =? _); [|done].
  split; [by apply window_only_scheduleNextTick|].
  by apply one_timer_scheduleNextTick.
Qed.

Lemma timers_subscribe r w :
  window_only w ∧ one_timer w →
  window_only (subscribe r w).1 ∧ one_timer (subscribe r w).1.
Proof.
  intros [Hw H1]. unfold subscribe, new_Set.
  destruct (map_get _ _); simpl; destruct (map_has _ _); simpl; try done.
  - split; [by apply window_only_scheduleNextTick|].
    by apply one_timer_scheduleNextTick.
  - split; [by apply window_only_scheduleNextTick|].
    by apply one_timer_scheduleNextTick.
Qed.

Lemma pending_timer_fired id (t : Timers) :
  pending t = [] ∨ (∃ id' d, pending t = [(id', d)]) →
  is_pending id t = true →
  pending (timers_clear (Some id) t) = [].
Proof.
  unfold is_pending. rewrite bool_decide_eq_true.
  intros [Hnil|(id' & d & Hone)].
  - rewrite Hnil. by intros ?%elem_of_nil.
  - unfold timers_clear. cbn [pending]. rewrite Hone.
    intros ->%list_elem_of_singleton.
    rewrite filter_cons, decide_False; [done|]. simpl. by intros [].
Qed.

Lemma timers_step behaviour w op :
  window_only w ∧ one_timer w →
  window_only (step behaviour w op) ∧ one_timer (step behaviour w op).
Proof.
  intros [Hw H1]. destruct op; simpl.
  - by apply timers_subscribe.
  - unfold invoke. destruct (_ !! _); [|done]. by apply timers_unsubscribe.
  - done.
  - unfold cleanup. destruct (nextTickId (this w)) as [id|] eqn:Hid; [|done].
    split; [done|]. destruct H1 as [Hinj Hwin]. split; [done|]. left.
    destruct Hwin as [Hnil|(id' & d & Hone & Hid')]; simpl.
    + by rewrite Hnil.
    + rewrite Hone. simplify_eq.
      rewrite filter_cons, decide_False; [done|]. simpl. by intros [].
  - unfold timer_fires. destruct (is_pending _ _) eqn:Hp; [|done].
    apply (tick_preserves behaviour (λ w, window_only w ∧ one_timer w)).
    + intros u w'. apply timers_unsubscribe.
    + done.
    + split; [by destruct p|]. destruct H1 as [Hinj Hwin].
      destruct p; simpl in *.
      * split; [done|]. left. apply pending_timer_fired; [|done].
        destruct Hwin as [?|(?&?&?&?)]; eauto.
      * unfold is_pending in Hp. rewrite Hinj in Hp.
        by apply bool_decide_eq_true, elem_of_nil in Hp.
Qed.

(** On [window]'s own primitives the engine never has two timers pending, the
    pending one is the recorded one, and [cleanup] leaves none pending. *)
Lemma timers_run behaviour ops w :
  window_only w ∧ one_timer w →
  window_only (run behaviour ops w) ∧ one_timer (run behaviour ops w).
Proof.
  revert w. induction ops as [|op ops IH]; intros w H; [done|].
  apply IH. by apply timers_step.
Qed.

Lemma window_engine_one_timer behaviour initialTime ops :
  let w := run behaviour ops (new_TimeSync initialTime None None) in
  one_timer w
  ∧ length (pending (window w)) ≤ 1
  ∧ pending (window (cleanup w)) = []
  ∧ pending (injected (cleanup w)) = [].
Proof.
  intros w.
  assert (H : window_only w ∧ one_timer w).
  { apply timers_run. split; [done|]. split; [done|by left]. }
  destruct H as [Hw H1].
  destruct (timers_step behaviour w OpCleanup (conj Hw H1)) as [_ [Hc1 Hc2]].
  simpl in Hc1, Hc2.
  split_and!; [done| | |done].
  - destruct H1 as [_ [->|(?&?&->&_)]]; simpl; lia.
  - destruct Hc2 as [?|(id & d & Hone & Hid)]; [done|].
    unfold cleanup in *.
    destruct (nextTickId (this w)) eqn:Hrec; simpl in *; congruence.
Qed.

(** ** Buckets and live subscribers *)

Lemma default_lookup_alter (f : JSSet → JSSet) a a' (h : list JSSet) :
  default [] (alter f a h !! a')
  = if decide (a = a' ∧ a < length h) then f (default [] (h !! a'))
    else default [] (h !! a').
Proof.
  case_decide as Hd.
  - destruct Hd as [-> Hlt]. rewrite list_lookup_alter_eq.
    apply lookup_lt_is_Some in Hlt as [s ->]. done.
  - destruct (decide (a = a')) as [->|Hne].
    + rewrite list_lookup_alter_eq.
      rewrite (proj2 (lookup_ge_None _ _)); [done|]. lia.
    + by rewrite list_lookup_alter_ne.
Qed.

Lemma elem_of_set_add_inv (s : JSSet) c c' :
  c' ∈ live (set_add s c) → c' ∈ live s ∨ c' = c.
Proof.
  unfold set_add. destruct (set_has s c); [by left|].
  rewrite live_app. intros [?|Hc]%elem_of_app; [by left|right].
  by apply list_elem_of_singleton in Hc.
Qed.

Lemma map_get_delete_eq (m : JSMap) k : map_get (map_delete m k) k = None.
Proof.
  induction m as [|[[k0 a0]|] m IH]; simpl; [done| |done].
  destruct (decide (k0 = k)) as [->|Hk0]; simpl; [done|].
  by rewrite decide_False.
Qed.

Lemma bucket_app w w' k e :
  subscriptions (this w') = subscriptions (this w) ++ [Some e] →
  bucket w' k
  = match bucket w k with
    | Some a => Some a
    | None => if decide (e.1 = k) then Some e.2 else None
    end.
Proof.
  intros Hm. unfold bucket. rewrite Hm.
  destruct (map_get (subscriptions (this w)) k) as [a|] eqn:Hk.
  - by apply map_get_app_Some.
  - rewrite (map_get_app_None _ _ _ Hk). by destruct e.
Qed.

Lemma req_eta r : req (callback r) (maxUpdateIntervalMs r) = r.
Proof. by destruct r. Qed.

(** What [subscribe] does to the closures, the bucket map and the [Set]s. *)
Lemma subscribe_effect r w :
  wf w →
  let k := maxUpdateIntervalMs r in
  let sg := default (length (heap w)) (bucket w k) in
  let w' := (subscribe r w).1 in
  closures w' = closures w ++ [{| subGroup := sg; request := r |}]
  ∧ length (heap w) ≤ length (heap w')
  ∧ sg < length (heap w')
  ∧ (∀ k', bucket w' k'
           = match bucket w k' with
             | Some a => Some a
             | None => if decide (k = k') then Some sg else None
             end)
  ∧ (∀ a', set_at w' a'
           = if decide (sg = a') then set_add (set_at w a') (callback r)
             else set_at w a').
Proof.
  intros Hwf k sg w'. set (c := callback r).
  assert (Hfields :
    closures w' = closures w ++ [{| subGroup := sg; request := r |}]
    ∧ heap w' = alter (λ s, set_add s c) sg
                  (match bucket w k with Some _ => heap w | None => heap w ++ [[]] end)
    ∧ (∀ k', bucket w' k'
             = match bucket w k' with
               | Some a => Some a
               | None => if decide (k = k') then Some sg else None
               end)).
  { subst w' sg.
    destruct (bucket w k) as [a|] eqn:Hget.
    - rewrite (subscribe_existing r w a Hget). simpl.
      split_and!; [done..|]. intros k'.
      change (bucket w k' = match bucket w k' with
                            | Some a0 => Some a0
                            | None => if decide (k = k') then Some a else None
                            end).
      destruct (bucket w k') eqn:Hk'; [done|].
      case_decide; [|done]. subst k'. congruence.
    - destruct (subscribe_new r w Hget) as (_ & Hm & Hh & Hc). simpl.
      split_and!; [done..|]. intros k'.
      by rewrite (bucket_app w _ k' _ Hm). }
  destruct Hfields as (Hcl & Hh & Hb).
  assert (Hsg :
    sg < length (match bucket w k with
                 | Some _ => heap w
                 | None => heap w ++ [[]]
                 end)).
  { subst sg. destruct (bucket w k) as [a|] eqn:Hk; simpl.
    - by apply (wf_addr _ Hwf k).
    - rewrite length_app. simpl. lia. }
  assert (Hlen : length (heap w) ≤ length (heap w')).
  { rewrite Hh, length_alter. destruct (bucket w k); [done|].
    rewrite length_app. lia. }
  assert (Hset : ∀ a', set_at w' a'
                 = if decide (sg = a') then set_add (set_at w a') c
                   else set_at w a').
  { intros a'. unfold set_at. rewrite Hh, default_lookup_alter.
    assert (Hold :
      default [] ((match bucket w k with
                   | Some _ => heap w
                   | None => heap w ++ [[]]
                   end) !! a')
      = default [] (heap w !! a')).
    { destruct (bucket w k); [done|].
      destruct (decide (a' < length (heap w))) as [Hlt|Hge].
      - by rewrite lookup_app_l.
      - rewrite (proj2 (lookup_ge_None (heap w) _)) by lia.
        destruct (decide (a' = length (heap w))) as [->|Hne'].
        + by rewrite lookup_app_r, Nat.sub_diag.
        + rewrite (proj2 (lookup_ge_None _ _)); [done|].
          rewrite length_app. simpl. lia. }
    rewrite Hold. case_decide as Hd; [by rewrite decide_True by apply Hd|].
    case_decide as Hd'; [|done]. destruct Hd. by split. }
  split_and!; [done|done| |done|done].
  by rewrite Hh, length_alter.
Qed.

Section Accounting.

Variable w : World.
Variable made : list (SubscriptionRequest * bool).
Hypothesis Hacc : accounted w made.

Lemma accounted_length : length (closures w) = length made.
Proof.
  pose proof (f_equal length (acc_requests _ _ Hacc)) as H.
  by rewrite !length_fmap in H.
Qed.

Lemma accounted_frame w' :
  subscriptions (this w') = subscriptions (this w) →
  heap w' = heap w → closures w' = closures w →
  accounted w' made.
Proof.
  intros Hm Hh Hc. destruct Hacc as [Hwf Hreq Hheap Hown Hmem Hne].
  split; unfold bucket, set_at in *; rewrite ?Hm, ?Hh, ?Hc; try done.
  by apply (wf_frame w).
Qed.

Lemma accounted_subscribe r :
  accounted (subscribe r w).1 (made ++ [(r, false)]).
Proof.
  pose proof Hacc as [Hwf Hreq Hheap Hown Hmem Hne].
  set (k := maxUpdateIntervalMs r). set (c := callback r).
  set (w' := (subscribe r w).1).
  set (sg := default (length (heap w)) (bucket w k)).
  destruct (subscribe_effect r w Hwf) as (Hcl & Hlen & Hsg & Hb & Hset).
  fold k c sg w' in Hcl, Hlen, Hsg, Hb, Hset.
  assert (Hfresh : bucket w k = None → ∀ k' a', bucket w k' = Some a' → sg ≠ a').
  { intros Hk k' a' Hk' <-. subst sg. rewrite Hk in Hk'. simpl in Hk'.
    apply (wf_addr _ Hwf) in Hk'. lia. }
  assert (Hmine : ∀ k', bucket w k' = Some sg → k' = k).
  { intros k' Hk'. destruct (bucket w k) as [a|] eqn:Hk.
    - subst sg. simpl in *. by eapply (wf_inj _ Hwf).
    - by destruct (Hfresh eq_refl k' sg Hk'). }
  split.
  - by apply wf_subscribe.
  - fold w'. rewrite Hcl, !fmap_app, Hreq. done.
  - fold w'. rewrite Hcl. intros u [Hu|Hu]%elem_of_app.
    + specialize (Hheap u Hu). lia.
    + apply list_elem_of_singleton in Hu. by subst u.
  - fold w'. rewrite Hcl. intros u k' [Hu|Hu]%elem_of_app; rewrite Hb.
    + destruct (bucket w k') as [a|] eqn:Hk'; [intros [= ->]; by eapply Hown|].
      case_decide; [|done]. intros [= Hsg']. subst k'.
      specialize (Hheap u Hu). subst sg. rewrite Hk' in Hsg'. simpl in Hsg'. lia.
    + apply list_elem_of_singleton in Hu. subst u. simpl.
      destruct (bucket w k') as [a|] eqn:Hk'.
      * intros [= ->]. apply Hmine in Hk'. by subst.
      * case_decide; [by subst|done].
  - fold w'. intros k' a' c'. rewrite Hb, Hset, Hcl.
    assert (Hnew : k' = k → sg = a' → c' = c →
      ∃ i, (closures w ++ [{| subGroup := sg; request := r |}]) !! i
           = Some {| subGroup := a'; request := req c' k' |}
           ∧ (made ++ [(r, false)]) !! i = Some (req c' k', false)).
    { intros -> <- ->. exists (length (closures w)). split.
      - rewrite lookup_app_r, Nat.sub_diag by done. simpl.
        subst c k. by rewrite req_eta.
      - rewrite accounted_length, lookup_app_r, Nat.sub_diag by done.
        simpl. subst c k. by rewrite req_eta. }
    assert (Hold : bucket w k' = Some a' → c' ∈ live (set_at w a') →
      ∃ i, (closures w ++ [{| subGroup := sg; request := r |}]) !! i
           = Some {| subGroup := a'; request := req c' k' |}
           ∧ (made ++ [(r, false)]) !! i = Some (req c' k', false)).
    { intros Hk' Hc'. destruct (Hmem k' a' c' Hk' Hc') as (i & Hi & Hm).
      exists i. split; by apply lookup_app_l_Some. }
    destruct (bucket w k') as [a|] eqn:Hk'.
    + intros [= ->]. case_decide as Hd; [|by apply Hold].
      intros [Hc'|Hc']%elem_of_set_add_inv; [by apply Hold|].
      apply Hnew; [|done..]. apply Hmine. by rewrite Hd.
    + case_decide as Hkk; [|done]. intros [= <-].
      rewrite decide_True by done.
      assert (Hempty : set_at w sg = []).
      { unfold set_at. rewrite (proj2 (lookup_ge_None _ _)); [done|].
        subst sg k'. rewrite Hk'. simpl. lia. }
      rewrite Hempty. intros Hc'%elem_of_set_add_inv.
      destruct Hc' as [Hc'|Hc']; [by apply elem_of_nil in Hc'|].
      by apply Hnew.
  - fold w'. intros k' a'. rewrite Hb, Hset.
    assert (Hadd : live (set_add (set_at w a') c) ≠ []).
    { intros Hnil. pose proof (elem_of_set_add (set_at w a') c) as Hin.
      rewrite Hnil in Hin. by apply elem_of_nil in Hin. }
    destruct (bucket w k') as [a|] eqn:Hk'.
    + intros [= ->]. case_decide; [done|]. by eapply Hne.
    + case_decide; [|done]. intros [= <-]. by rewrite decide_True.
Qed.

Lemma accounted_unsubscribe i u :
  closures w !! i = Some u →
  accounted (unsubscribe u w) (alter (λ e, (e.1, true)) i made).
Proof.
  intros Hi. pose proof Hacc as [Hwf Hreq Hheap Hown Hmem Hne].
  pose proof (shrinks_unsubscribe u w) as Hsh.
  pose proof Hsh as (Hbl & Hhl & Hcl).
  assert (Hu : u ∈ closures w) by (by eapply list_elem_of_lookup_2).
  assert (Hb : ∀ k a, bucket (unsubscribe u w) k = Some a → bucket w k = Some a).
  { intros k a. apply map_get_blanked; [apply Hwf|done]. }
  split.
  - by eapply wf_shrinks.
  - rewrite Hcl, Hreq. apply list_eq. intros j.
    rewrite !list_lookup_fmap.
    destruct (decide (i = j)) as [->|Hij].
    + rewrite list_lookup_alter_eq. by destruct (made !! j).
    + by rewrite list_lookup_alter_ne.
  - rewrite Hcl. intros u' Hu'.
    rewrite <- (Forall2_length _ _ _ Hhl). by apply Hheap.
  - rewrite Hcl. intros u' k Hu' Hk. apply Hown; [done|]. by apply Hb.
  - rewrite Hcl. intros k a c Hk Hc.
    assert (Hc0 : c ∈ live (set_at w a)).
    { eapply sublist_subseteq; [|exact Hc].
      by apply blanked_live, shrinks_set_at. }
    destruct (Hmem k a c (Hb _ _ Hk) Hc0) as (j & Hj & Hm).
    exists j. split; [done|].
    destruct (decide (i = j)) as [->|Hij].
    + rewrite Hi in Hj. injection Hj as ->.
      by destruct (unsubscribe_gone {| subGroup := a; request := req c k |} w).
    + by rewrite list_lookup_alter_ne.
  - intros k a Hk. pose proof (Hb _ _ Hk) as Hk0.
    destruct (decide (a = subGroup u)) as [->|Hne'].
    + assert (k = interval_of u) as -> by (by apply Hown).
      unfold unsubscribe, bucket in *.
      destruct (_ =? _) eqn:Hsize.
      * rewrite subscriptions_scheduleNextTick in Hk. simpl in Hk.
        unfold interval_of in Hk. by rewrite map_get_delete_eq in Hk.
      * intros Hnil. apply Nat.eqb_neq in Hsize. apply Hsize.
        unfold set_size. by rewrite Hnil.
    + rewrite set_at_unsubscribe_frame by done. by eapply Hne.
Qed.

End Accounting.

Lemma accounted_step behaviour w made op :
  (∀ c, invokes (behaviour c) = []) →
  accounted w made → accounted (step behaviour w op) (note made op).
Proof.
  intros Hinert Hacc. destruct op; simpl.
  - by apply accounted_subscribe.
  - unfold invoke. destruct (closures w !! i) as [u|] eqn:Hi.
    + by apply accounted_unsubscribe.
    + rewrite alter_fixed; [done|]. intros e He.
      apply lookup_lt_Some in He. apply lookup_ge_None in Hi.
      rewrite (accounted_length _ _ Hacc) in Hi. lia.
  - done.
  - apply (accounted_frame w); [done|..];
      unfold cleanup; by destruct (nextTickId (this w)).
  - unfold timer_fires. destruct (is_pending _ _); [|done].
    rewrite tick_inert by (intros; apply Hinert).
    apply (accounted_frame w); [done|..]; by destruct p.
Qed.

Lemma accounted_run behaviour ops w made :
  (∀ c, invokes (behaviour c) = []) →
  accounted w made →
  accounted (run behaviour ops w) (foldl note made ops).
Proof.
  intros Hinert. revert w made.
  induction ops as [|op ops IH]; intros w made Hacc; [done|].
  simpl. apply IH. by apply accounted_step.
Qed.

Lemma accounted_new_TimeSync initialTime st ct :
  accounted (new_TimeSync initialTime st ct) [].
Proof.
  split; [apply wf_new_TimeSync|done|..].
  - intros u Hu. by apply elem_of_nil in Hu.
  - intros u k' Hu. by apply elem_of_nil in Hu.
  - done.
  - done.
Qed.

Lemma accounted_keys w made k :
  accounted w made →
  k ∈ map_keys (subscriptions (this w)) →
  k ∈ (λ e, maxUpdateIntervalMs e.1) <$>
        filter (λ e : SubscriptionRequest * bool, e.2 = false) made.
Proof.
  intros Hacc Hk.
  destruct (bucket w k) as [a|] eqn:Hb.
  2:{ by apply map_get_None in Hb. }
  destruct (live (set_at w a)) as [|c l] eqn:Hlive.
  { by destruct (acc_nonempty _ _ Hacc k a Hb). }
  assert (Hc : c ∈ live (set_at w a)) by (rewrite Hlive; left).
  destruct (acc_member _ _ Hacc k a c Hb Hc) as (i & _ & Hm).
  apply list_elem_of_fmap.
  exists (req c k, false). split; [done|].
  apply list_elem_of_filter. split; [done|].
  by eapply list_elem_of_lookup_2.
Qed.

(** Whatever is done to the engine (ticks with callbacks that leave their
    subscriptions alone included), every key of the bucket map is the
    interval of a subscription whose unsubscribe function has not been
    invoked, and no bucket is empty.  The converse is what fails above. *)
Lemma buckets_have_live_subscribers behaviour initialTime st ct ops k :
  (∀ c, invokes (behaviour c) = []) →
  k ∈ map_keys (subscriptions
                  (this (run behaviour ops (new_TimeSync initialTime st ct)))) →
  k ∈ live_intervals ops.
Proof.
  intros Hinert. apply accounted_keys, accounted_run; [done|].
  apply accounted_new_TimeSync.
Qed.

(** ** A well-behaved client *)

Lemma elem_of_set_add_mono (s : JSSet) c c' :
  c' ∈ live s → c' ∈ live (set_add s c).
Proof.
  intros Hc'. unfold set_add. destruct (set_has s c); [done|].
  rewrite live_app. apply elem_of_app. by left.
Qed.

Lemma tracked_frame w w' made :
  subscriptions (this w') = subscriptions (this w) →
  heap w' = heap w → closures w' = closures w →
  tracked w made → tracked w' made.
Proof.
  intros Hm Hh Hc [Hacc Hlive Huniq]. split; [|  |done].
  - by apply (accounted_frame w).
  - unfold bucket, set_at in *. by rewrite Hm, Hh, Hc.
Qed.

Lemma tracked_subscribe r w made :
  tracked w made → (r, false) ∉ made →
  tracked (subscribe r w).1 (made ++ [(r, false)]).
Proof.
  intros [Hacc Hlive Huniq] Hnew.
  pose proof (acc_wf _ _ Hacc) as Hwf.
  destruct (subscribe_effect r w Hwf) as (Hcl & _ & _ & Hb & Hset).
  set (sg := default (length (heap w)) (bucket w (maxUpdateIntervalMs r))) in *.
  split.
  - by apply accounted_subscribe.
  - intros i r' [Hi|[Hge Hi]]%lookup_app_Some.
    + destruct (Hlive i r' Hi) as (a & Hcli & Hbi & Hci).
      exists a. rewrite Hcl, Hb, Hbi, Hset. split_and!; [|done|].
      * by apply lookup_app_l_Some.
      * case_decide; [by apply elem_of_set_add_mono|done].
    + apply list_lookup_singleton_Some in Hi as [Hi0 [= <-]].
      assert (i = length (closures w)) as ->.
      { rewrite (accounted_length _ _ Hacc). lia. }
      exists sg. rewrite Hcl, Hb, Hset. split_and!.
      * by rewrite lookup_app_r, Nat.sub_diag.
      * subst sg. destruct (bucket w (maxUpdateIntervalMs r)); [done|].
        by rewrite decide_True.
      * rewrite decide_True by done. apply elem_of_set_add.
  - intros i j r' [Hi|[Hgi Hi]]%lookup_app_Some [Hj|[Hgj Hj]]%lookup_app_Some.
    + by eapply Huniq.
    + apply list_lookup_singleton_Some in Hj as [_ [= <-]].
      destruct Hnew. by eapply list_elem_of_lookup_2.
    + apply list_lookup_singleton_Some in Hi as [_ [= <-]].
      destruct Hnew. by eapply list_elem_of_lookup_2.
    + apply list_lookup_singleton_Some in Hi as [Hi0 _].
      apply list_lookup_singleton_Some in Hj as [Hj0 _]. lia.
Qed.

Lemma tracked_unsubscribe i r w made :
  tracked w made → made !! i = Some (r, false) →
  tracked (invoke i w) (alter (λ e, (e.1, true)) i made).
Proof.
  intros [Hacc Hlive Huniq] Hi.
  pose proof (acc_wf _ _ Hacc) as Hwf.
  destruct (Hlive i r Hi) as (a & Hcli & Hbi & Hci).
  unfold invoke. rewrite Hcli.
  set (u := {| subGroup := a; request := r |}) in *.
  assert (Hother : ∀ j r', alter (λ e, (e.1, true)) i made !! j
                             = Some (r', false) →
                   j ≠ i ∧ made !! j = Some (r', false)).
  { intros j r' Hj. destruct (decide (i = j)) as [->|Hij].
    - rewrite list_lookup_alter_eq, Hi in Hj. done.
    - by rewrite list_lookup_alter_ne in Hj. }
  split.
  - by apply accounted_unsubscribe.
  - intros j r' Hj. destruct (Hother j r' Hj) as [Hne Hj0].
    destruct (Hlive j r' Hj0) as (a' & Hclj & Hbj & Hcj).
    exists a'.
    rewrite (proj2 (proj2 (shrinks_unsubscribe u w))).
    split; [done|].
    apply unsubscribe_spares; [|done..].
    apply (own_bucket_spares w); [done..|].
    intros [= Hk Hc]. apply Hne. apply (Huniq j i r'); [done|].
    rewrite Hi. do 2 f_equal. destruct r, r'. simpl in *. by subst.
  - intros j1 j2 r' Hj1 Hj2.
    destruct (Hother _ _ Hj1) as [_ Hj1'].
    destruct (Hother _ _ Hj2) as [_ Hj2']. by eapply Huniq.
Qed.

Lemma tracked_step behaviour w made op :
  (∀ c, invokes (behaviour c) = []) →
  tracked w made → well_behaved_op made op →
  tracked (step behaviour w op) (note made op).
Proof.
  intros Hinert Htr Hop. destruct op; simpl in *.
  - by apply tracked_subscribe.
  - destruct Hop as [r Hr]. by eapply tracked_unsubscribe.
  - done.
  - apply (tracked_frame w); [..|done];
      unfold cleanup; by destruct (nextTickId (this w)).
  - unfold timer_fires. destruct (is_pending _ _); [|done].
    rewrite tick_inert by (intros; apply Hinert).
    apply (tracked_frame w); [..|done]; by destruct p.
Qed.

(** For a well-behaved client, and ticks whose callbacks leave their
    subscriptions alone, the keys of the bucket map are exactly the intervals
    that have a live subscriber. *)
Lemma buckets_are_live_intervals_when_well_behaved behaviour ops :
  (∀ c, invokes (behaviour c) = []) →
  well_behaved [] ops →
  buckets_are_live_intervals behaviour ops.
Proof.
  intros Hinert Hops.
  assert (Htr : tracked (run behaviour ops (new_TimeSync 0%Z None None))
                  (foldl note [] ops)).
  { assert (H0 : tracked (new_TimeSync 0%Z None None) []).
    { split; [apply accounted_new_TimeSync|done..]. }
    revert H0 Hops. generalize (new_TimeSync 0%Z None None).
    generalize (@nil (SubscriptionRequest * bool)).
    induction ops as [|op ops IH]; intros made w0 H0 Hops; [done|].
    destruct Hops as [Hop Hops]. simpl. apply IH; [|done].
    by apply tracked_step. }
  destruct Htr as [Hacc Hlive _]. intros k. split.
  - by apply accounted_keys.
  - unfold live_intervals.
    intros ([r b] & -> & Hr)%list_elem_of_fmap.
    apply list_elem_of_filter in Hr as [Hb Hr]. simpl in Hb. subst b.
    apply list_elem_of_lookup_1 in Hr as [i Hi].
    destruct (Hlive i r Hi) as (a & _ & Hbk & _). simpl.
    destruct (decide (maxUpdateIntervalMs r
                      ∈ map_keys (subscriptions
                          (this (run behaviour ops
                                   (new_TimeSync 0%Z None None))))))
      as [?|Hnot]; [done|].
    apply map_get_None in Hnot. unfold bucket in Hbk. congruence.
Qed.

(** ** The minimum that [scheduleNextTick] computes *)

Lemma num_lt_irrefl x : num_lt x x = false.
Proof. destruct x; simpl; try done. apply Z.ltb_irrefl. Qed.

Lemma num_lt_lower x y z :
  num_lt x y = false → num_lt z y = true → num_lt x z = false.
Proof.
  destruct x, y, z; simpl; try done.
  rewrite !Z.ltb_ge, Z.ltb_lt. lia.
Qed.

Lemma earliest_snoc ks k :
  earliest (ks ++ [k]) = if num_lt k (earliest ks) then k else earliest ks.
Proof. by rewrite earliest_app. Qed.

(** No key lies below the result, and the result is [Infinity] or a key. *)
Lemma earliest_least ks :
  (∀ k, k ∈ ks → num_lt k (earliest ks) = false)
  ∧ (earliest ks = Infinity ∨ earliest ks ∈ ks).
Proof.
  induction ks as [|k ks [IH1 IH2]] using rev_ind.
  { split; [|by left]. intros k Hk. by apply elem_of_nil in Hk. }
  rewrite earliest_snoc. destruct (num_lt k (earliest ks)) eqn:Hk; split.
  - intros k' [Hk'|Hk']%elem_of_app.
    + eapply num_lt_lower; [by apply IH1|done].
    + apply list_elem_of_singleton in Hk'. subst k'. apply num_lt_irrefl.
  - right. apply elem_of_app. right. left.
  - intros k' [Hk'|Hk']%elem_of_app; [by apply IH1|].
    apply list_elem_of_singleton in Hk'. by subst k'.
  - destruct IH2 as [?|?]; [by left|right]. apply elem_of_app. by left.
Qed.

Lemma earliest_not_NaN ks : earliest ks ≠ NaN.
Proof.
  induction ks as [|k ks IH] using rev_ind; [done|].
  rewrite earliest_snoc. destruct (num_lt k (earliest ks)) eqn:Hk; [|done].
  by destruct k.
Qed.

(** The early return is taken exactly when no key is below [Infinity]. *)
Lemma earliest_Infinity ks :
  strict_eq (earliest ks) Infinity = true
  ↔ ∀ k, k ∈ ks → num_lt k Infinity = false.
Proof.
  destruct (earliest_least ks) as [Hleast Hin].
  pose proof (earliest_not_NaN ks) as HNaN. split.
  - intros Heq k Hk. specialize (Hleast k Hk).
    destruct (earliest ks); simpl in Heq; try done.
  - intros Hall. destruct Hin as [->|Hin]; [done|].
    specialize (Hall _ Hin). by destruct (earliest ks).
Qed.

(** ** Invoking an unsubscribe function twice in a row *)

Lemma set_delete_idemp (s : JSSet) c :
  set_delete (set_delete s c) c = set_delete s c.
Proof.
  unfold set_delete. rewrite <- list_fmap_compose.
  apply list_fmap_ext. intros _ e _. simpl.
  destruct (decide (e = Some c)); [done|]. by rewrite decide_False.
Qed.

Lemma map_delete_idemp (m : JSMap) k :
  map_delete (map_delete m k) k = map_delete m k.
Proof.
  unfold map_delete. rewrite <- list_fmap_compose.
  apply list_fmap_ext. intros _ [[k' a]|] _; simpl; [|done].
  destruct (decide (k' = k)); [done|]. by rewrite decide_False.
Qed.

(** A second invocation right after the first leaves every bucket as it is
    (it may still recompute the schedule). *)
Lemma unsubscribe_again u w :
  subscriptions (this (unsubscribe u (unsubscribe u w)))
  = subscriptions (this (unsubscribe u w))
  ∧ heap (unsubscribe u (unsubscribe u w)) = heap (unsubscribe u w).
Proof.
  set (f := λ s : JSSet, set_delete s (callback (request u))).
  assert (Hheap : ∀ w0, heap (unsubscribe u w0) = alter f (subGroup u) (heap w0)).
  { intros w0. unfold unsubscribe. destruct (_ =? _); [|done].
    by rewrite heap_scheduleNextTick. }
  assert (Hfix : alter f (subGroup u) (alter f (subGroup u) (heap w))
                 = alter f (subGroup u) (heap w)).
  { apply alter_fixed. intros s Hs. rewrite list_lookup_alter_eq in Hs.
    destruct (heap w !! subGroup u) as [s0|]; [|done].
    injection Hs as <-. apply set_delete_idemp. }
  assert (Hsubs : ∀ w0, subscriptions (this (unsubscribe u w0))
    = if set_size (default [] (alter f (subGroup u) (heap w0) !! subGroup u))
         =? 0
      then map_delete (subscriptions (this w0)) (maxUpdateIntervalMs (request u))
      else subscriptions (this w0)).
  { intros w0. unfold unsubscribe, set_at. simpl. fold f.
    destruct (_ =? _); [|done]. by rewrite subscriptions_scheduleNextTick. }
  split; [|by rewrite !Hheap, Hfix].
  rewrite (Hsubs (unsubscribe u w)), Hheap, Hfix, (Hsubs w).
  destruct (_ =? _); [apply map_delete_idemp|done].
Qed.

(** * Further properties of the engine *)

(** ** The shape of every reachable state *)

(** X1: Whatever sequence of operations is applied to a new engine, with
    callbacks that may unsubscribe and throw, the bucket map never holds an
    interval twice, no [Set] holds a callback twice, every bucket refers to
    an allocated [Set], two intervals never share a [Set], and so no
    (interval, callback) pair is registered twice. *)
Theorem reachable_states_are_well_formed behaviour initialTime st ct ops :
  let w := run behaviour ops (new_TimeSync initialTime st ct) in
  NoDup (map_keys (subscriptions (this w)))
  ∧ (∀ a, NoDup (live (set_at w a)))
  ∧ (∀ k a, bucket w k = Some a → a < length (heap w))
  ∧ (∀ k1 k2 a, bucket w k1 = Some a → bucket w k2 = Some a → k1 = k2)
  ∧ NoDup (registrations w).
Proof.
  intros w.
  assert (Hwf : wf w) by apply wf_run, wf_new_TimeSync.
  split_and!.
  - apply Hwf.
  - intros a. by apply NoDup_set_at.
  - apply Hwf.
  - apply Hwf.
  - by apply NoDup_registrations.
Qed.

(** ** Timers *)

Lemma delays_timers_clear h (t : Timers) :
  Forall (λ e : nat * number, e.2 = Infinity) (pending t) →
  Forall (λ e : nat * number, e.2 = Infinity) (pending (timers_clear h t)).
Proof.
  intros H. destruct h as [id|]; [|done]. simpl.
  rewrite Forall_forall in *. intros e He.
  apply list_elem_of_filter in He as [_ He]. by apply H.
Qed.

Lemma delays_with_timers_clear p h w :
  delays_are_Infinity w →
  delays_are_Infinity (with_timers p (timers_clear h) w).
Proof.
  intros [Hw Hi]. destruct p; split; simpl; try done;
    by apply delays_timers_clear.
Qed.

Lemma delays_scheduleNextTick w :
  delays_are_Infinity w → delays_are_Infinity (scheduleNextTick w).
Proof.
  intros H. rewrite scheduleNextTick_spec. cbv zeta.
  pose proof (delays_with_timers_clear (clearTimeout (this w))
                (nextTickId (this w)) w H) as Hc.
  destruct (strict_eq _ _); [done|].
  destruct Hc as [Hw Hi].
  destruct (setTimeout (this w)); split; simpl; try done;
    apply Forall_app; split; try done; by apply Forall_singleton.
Qed.

Lemma delays_unsubscribe u w :
  delays_are_Infinity w → delays_are_Infinity (unsubscribe u w).
Proof.
  intros H. unfold unsubscribe. destruct (_ =? _); [|done].
  by apply delays_scheduleNextTick.
Qed.

Lemma delays_subscribe r w :
  delays_are_Infinity w → delays_are_Infinity (subscribe r w).1.
Proof.
  intros H. unfold subscribe, new_Set.
  destruct (map_get _ _); simpl; destruct (map_has _ _); simpl; try done;
    by apply (delays_scheduleNextTick _).
Qed.

Lemma delays_step behaviour w op :
  delays_are_Infinity w → delays_are_Infinity (step behaviour w op).
Proof.
  intros H. destruct op; simpl.
  - by apply delays_subscribe.
  - unfold invoke. destruct (_ !! _); [|done]. by apply delays_unsubscribe.
  - done.
  - unfold cleanup. destruct (nextTickId (this w)); [|done].
    by apply (delays_with_timers_clear Window).
  - unfold timer_fires. destruct (is_pending _ _); [|done].
    apply (tick_preserves behaviour delays_are_Infinity).
    + intros u w'. apply delays_unsubscribe.
    + done.
    + by apply delays_with_timers_clear.
Qed.

Lemma delays_run behaviour ops w :
  delays_are_Infinity w → delays_are_Infinity (run behaviour ops w).
Proof.
  revert w. induction ops as [|op ops IH]; intros w H; [done|].
  apply IH. by apply delays_step.
Qed.

(** X2: Every timer the engine has pending, in whichever timer system, was
    armed with the delay [Infinity], whatever intervals were subscribed. *)
Theorem every_pending_timer_has_delay_Infinity
    behaviour initialTime st ct ops p :
  let w := run behaviour ops (new_TimeSync initialTime st ct) in
  Forall (λ e : nat * number, e.2 = Infinity) (pending (timers_of p w)).
Proof.
  intros w.
  assert (H : delays_are_Infinity w).
  { apply delays_run. by split. }
  destruct H as [Hw Hi]. by destruct p.
Qed.

(** X3: An engine built on [window]'s primitives never has two timers
    pending: at most one is, its handle is the recorded [nextTickId], and
    [cleanup] leaves none. *)
Theorem at_most_one_timer_on_window_primitives behaviour initialTime ops :
  let w := run behaviour ops (new_TimeSync initialTime None None) in
  pending (injected w) = []
  ∧ (pending (window w) = []
     ∨ ∃ id, pending (window w) = [(id, Infinity)]
             ∧ nextTickId (this w) = Some id)
  ∧ pending (window (cleanup w)) = []
  ∧ nextTickId (this (cleanup w)) = None.
Proof.
  intros w.
  assert (H : window_only w ∧ one_timer w).
  { apply timers_run. split; [done|]. split; [done|by left]. }
  destruct H as [Hw [Hinj Hwin]].
  assert (Hd : delays_are_Infinity w).
  { apply delays_run. by split. }
  split_and!; [done| | |].
  - destruct Hwin as [?|(id & d & Hone & Hid)]; [by left|right].
    exists id. split; [|done]. destruct Hd as [Hd _]. rewrite Hone in Hd.
    apply Forall_inv in Hd. simpl in Hd. by rewrite Hone, Hd.
  - unfold cleanup. destruct (nextTickId (this w)) as [id|] eqn:Hid; simpl.
    + destruct Hwin as [->|(id' & d & -> & Hid')]; [done|].
      simplify_eq. rewrite filter_cons, decide_False; [done|].
      simpl. by intros [].
    + destruct Hwin as [?|(id' & d & _ & Hid')]; [done|congruence].
  - unfold cleanup. by destruct (nextTickId (this w)) eqn:Hid.
Qed.

(** ** [scheduleNextTick] *)

(** X4: The loop of [scheduleNextTick] computes a minimum: its result is
    [Infinity] or one of the keys, no key is below it, it is never [NaN],
    and it is [Infinity] exactly when no key is below [Infinity]. *)
Theorem earliest_is_the_least_key keys :
  (earliest keys = Infinity ∨ earliest keys ∈ keys)
  ∧ (∀ k, k ∈ keys → num_lt k (earliest keys) = false)
  ∧ earliest keys ≠ NaN
  ∧ (strict_eq (earliest keys) Infinity = true
     ↔ ∀ k, k ∈ keys → num_lt k Infinity = false).
Proof.
  destruct (earliest_least keys) as [H1 H2].
  split_and!; [done|done|apply earliest_not_NaN|apply earliest_Infinity].
Qed.

(** X5: When no bucket's interval is below [Infinity] (no bucket at all,
    or only intervals [Infinity] and [NaN]), [scheduleNextTick] cancels the
    recorded timer and does nothing else: no timer is armed, and
    [nextTickId] keeps the handle that was just cancelled. *)
Theorem scheduleNextTick_only_cancels_when_nothing_is_due w :
  (∀ k, k ∈ map_keys (subscriptions (this w)) → num_lt k Infinity = false) →
  scheduleNextTick w
  = with_timers (clearTimeout (this w)) (timers_clear (nextTickId (this w))) w
  ∧ this (scheduleNextTick w) = this w
  ∧ (∀ p id, is_pending id (timers_of p (scheduleNextTick w)) = true →
             is_pending id (timers_of p w) = true
             ∧ (p = clearTimeout (this w) → nextTickId (this w) ≠ Some id)).
Proof.
  intros Hall. apply earliest_Infinity in Hall.
  rewrite scheduleNextTick_spec. cbv zeta. rewrite Hall.
  split_and!; [done|by destruct (clearTimeout (this w))|].
  intros p id. unfold is_pending. rewrite !bool_decide_eq_true.
  destruct (clearTimeout (this w)), p; simpl;
    (destruct (nextTickId (this w)) as [h|]; simpl; [|by intros; split]);
    intros ([id' d] & -> & He)%list_elem_of_fmap;
    try (split; [apply list_elem_of_fmap; by exists (id', d)|done]);
    apply list_elem_of_filter in He as [Hne He]; simpl in *;
    (split; [apply list_elem_of_fmap; by exists (id', d)|]);
    intros _ [= ->]; done.
Qed.

(** ** Unsubscribing *)

(** X6: Invoking an unsubscribe function a second time right after the
    first changes no bucket and no [Set]: the same callbacks are registered
    at the same intervals. *)
Theorem immediate_second_unsubscribe_keeps_registrations u w :
  let w1 := unsubscribe u w in
  let w2 := unsubscribe u w1 in
  subscriptions (this w2) = subscriptions (this w1)
  ∧ heap w2 = heap w1
  ∧ registrations w2 = registrations w1
  ∧ getValue w2 = getValue w1.
Proof.
  cbv zeta. destruct (unsubscribe_again u w) as [Hs Hh].
  split_and!; [done|done| |].
  - unfold registrations, registrations_of, set_at. by rewrite Hs, Hh.
  - unfold getValue. apply latestTime_unsubscribe.
Qed.

(** ** Buckets and the subscriptions behind them *)

Lemma tracked_run behaviour ops w made :
  (∀ c, invokes (behaviour c) = []) →
  tracked w made → well_behaved made ops →
  tracked (run behaviour ops w) (foldl note made ops).
Proof.
  intros Hinert. revert w made.
  induction ops as [|op ops IH]; intros w made H0 Hops; [done|].
  destruct Hops as [Hop Hops]. simpl. apply IH; [|done].
  by apply tracked_step.
Qed.

Lemma bucket_of_key w k :
  k ∈ map_keys (subscriptions (this w)) → ∃ a, bucket w k = Some a.
Proof.
  intros Hk. destruct (bucket w k) as [a|] eqn:Hb; [by exists a|].
  by apply map_get_None in Hb.
Qed.

(** X7: As long as callbacks do not unsubscribe from inside a tick, no
    sequence of operations leaves an empty bucket behind: every interval in
    the bucket map has an active subscriber, and is the interval of a
    subscription whose unsubscribe function has not been invoked. *)
Theorem no_bucket_is_empty behaviour initialTime st ct ops k :
  (∀ c, invokes (behaviour c) = []) →
  let w := run behaviour ops (new_TimeSync initialTime st ct) in
  k ∈ map_keys (subscriptions (this w)) →
  (∃ c, active w k c) ∧ k ∈ live_intervals ops.
Proof.
  intros Hinert w Hk.
  assert (Hacc : accounted w (foldl note [] ops)).
  { apply accounted_run; [done|]. apply accounted_new_TimeSync. }
  split; [|by eapply accounted_keys].
  destruct (bucket_of_key w k Hk) as [a Ha].
  pose proof (acc_nonempty _ _ Hacc k a Ha) as Hne.
  destruct (live (set_at w a)) as [|c l] eqn:Hlive; [done|].
  exists c, a. split; [done|]. rewrite Hlive. left.
Qed.

(** X8: For a client that invokes each unsubscribe function at most once,
    never from inside a callback during a tick, and does not subscribe a
    callback again at an interval it is still subscribed at, the engine
    registers exactly the subscriptions that have not been unsubscribed, and
    the keys of the bucket map are exactly their intervals. *)
Theorem well_behaved_client_is_tracked behaviour initialTime st ct ops :
  (∀ c, invokes (behaviour c) = []) →
  well_behaved [] ops →
  let w := run behaviour ops (new_TimeSync initialTime st ct) in
  (∀ k c, (k, c) ∈ registrations w ↔ (req c k, false) ∈ foldl note [] ops)
  ∧ (∀ k, k ∈ map_keys (subscriptions (this w)) ↔ k ∈ live_intervals ops).
Proof.
  intros Hinert Hops w.
  assert (Htr : tracked w (foldl note [] ops)).
  { apply tracked_run; [done| |done].
    split; [apply accounted_new_TimeSync|done..]. }
  destruct Htr as [Hacc Hlive _].
  assert (Hwf : wf w) by apply Hacc.
  split.
  - intros k c. rewrite registrations_active by apply Hwf. split.
    + intros (a & Ha & Hc).
      destruct (acc_member _ _ Hacc k a c Ha Hc) as (i & _ & Hm).
      by eapply list_elem_of_lookup_2.
    + intros [i Hi]%list_elem_of_lookup_1.
      destruct (Hlive i _ Hi) as (a & _ & Hb & Hc). by exists a.
  - intros k. split; [by apply accounted_keys|].
    unfold live_intervals.
    intros ([r b] & -> & Hr)%list_elem_of_fmap.
    apply list_elem_of_filter in Hr as [Hb Hr]. simpl in Hb. subst b.
    apply list_elem_of_lookup_1 in Hr as [i Hi].
    destruct (Hlive i r Hi) as (a & _ & Hbk & _). simpl.
    destruct (decide (maxUpdateIntervalMs r
                      ∈ map_keys (subscriptions (this w)))) as [?|Hnot]; [done|].
    apply map_get_None in Hnot. unfold bucket in Hbk. congruence.
Qed.

(** ** Subscriptions that are never due *)

Lemma idle_scheduleNextTick t0 w w' :
  idle t0 w →
  (∀ k, k ∈ map_keys (subscriptions (this w')) → num_lt k Infinity = false) →
  window w' = window w → injected w' = injected w →
  nextTickId (this w') = nextTickId (this w) →
  latestTime (this w') = latestTime (this w) →
  idle t0 (scheduleNextTick w').
Proof.
  intros (Hk & Hw & Hi & Hid & Ht) Hk' Hw' Hi' Hid' Ht'.
  rewrite scheduleNextTick_spec. cbv zeta.
  apply earliest_Infinity in Hk' as Hearly. rewrite Hearly.
  rewrite Hid', Hid.
  destruct (clearTimeout (this w')); (split_and!; simpl; [done|congruence..]).
Qed.

Lemma map_keys_map_delete (m : JSMap) k k' :
  k' ∈ map_keys (map_delete m k) → k' ∈ map_keys m.
Proof.
  intros Hk. eapply elem_of_sublist; [done|].
  apply map_keys_blanked, blanked_map_delete.
Qed.

Lemma idle_unsubscribe t0 u w : idle t0 w → idle t0 (unsubscribe u w).
Proof.
  intros H. unfold unsubscribe. destruct (_ =? _).
  - eapply idle_scheduleNextTick; [done| |done..].
    simpl. intros k Hk%map_keys_map_delete. by apply H.
  - done.
Qed.

Lemma idle_subscribe t0 r w :
  num_lt (maxUpdateIntervalMs r) Infinity = false →
  idle t0 w → idle t0 (subscribe r w).1.
Proof.
  intros Hr H. unfold subscribe, new_Set.
  destruct (map_get _ _) as [a|] eqn:Hget; simpl.
  - destruct (map_has _ _) eqn:Hhas; simpl; [done|].
    apply not_true_iff_false in Hhas. rewrite map_has_get in Hhas.
    destruct Hhas. by rewrite Hget.
  - destruct (map_has _ _) eqn:Hhas; simpl.
    { apply map_has_get in Hhas as [? ?]. simpl in *. congruence. }
    assert (Hs : idle t0 (scheduleNextTick
      (with_this
         (λ s, set_subscriptions
                 (map_set (subscriptions s) (maxUpdateIntervalMs r)
                    (length (heap w))) s)
         (with_heap (λ h, h ++ [[]]) w)))).
    { eapply idle_scheduleNextTick; [done| |done..].
      simpl. unfold map_set. simpl in Hhas. rewrite Hhas.
      rewrite map_keys_snoc. intros k [Hk|Hk]%elem_of_app; [by apply H|].
      apply list_elem_of_singleton in Hk. by subst k. }
    done.
Qed.

Lemma idle_step behaviour t0 w op :
  never_due op → idle t0 w → idle t0 (step behaviour w op).
Proof.
  intros Hop H. destruct op; simpl.
  - by apply idle_subscribe.
  - unfold invoke. destruct (_ !! _); [|done]. by apply idle_unsubscribe.
  - done.
  - unfold cleanup. destruct H as (Hk & Hw & Hi & Hid & Ht).
    rewrite Hid. by split_and!.
  - unfold timer_fires, is_pending.
    destruct H as (Hk & Hw & Hi & Hid & Ht).
    destruct p; simpl; rewrite ?Hw, ?Hi; simpl; by split_and!.
Qed.

Lemma idle_run behaviour t0 ops w :
  Forall never_due ops → idle t0 w →
  idle t0 (run behaviour ops w) ∧ captured behaviour ops w = [].
Proof.
  intros Hops. revert w.
  induction Hops as [|op ops Hop Hops IH]; intros w0 H0; [done|].
  simpl. destruct (IH (step behaviour w0 op)) as [IH1 IH2].
  { by apply idle_step. }
  split; [done|]. rewrite IH2, app_nil_r.
  destruct op; try done.
  destruct H0 as (_ & Hw & Hi & _). unfold is_pending.
  destruct p; simpl; by rewrite ?Hw, ?Hi.
Qed.

Lemma idle_new_TimeSync initialTime st ct :
  idle initialTime (new_TimeSync initialTime st ct).
Proof.
  split_and!; try done. intros k Hk. by apply elem_of_nil in Hk.
Qed.

(** X9: Subscriptions whose interval is not below [Infinity] (the interval
    a hook without [targetUpdateIntervalMs] asks for) never make the engine
    arm a timer: after any number of such subscriptions, unsubscriptions,
    cleanups and timer events nothing is pending, no handle is recorded,
    no tick has run, and [getValue] still returns the initial time. *)
Theorem subscriptions_at_Infinity_never_arm_a_timer
    behaviour initialTime st ct ops :
  Forall never_due ops →
  let w := run behaviour ops (new_TimeSync initialTime st ct) in
  pending (window w) = [] ∧ pending (injected w) = []
  ∧ nextTickId (this w) = None
  ∧ captured behaviour ops (new_TimeSync initialTime st ct) = []
  ∧ getValue w = initialTime.
Proof.
  intros Hops w.
  assert (H : idle initialTime w
              ∧ captured behaviour ops (new_TimeSync initialTime st ct) = []).
  { apply idle_run; [done|apply idle_new_TimeSync]. }
  destruct H as [(Hk & Hw & Hi & Hid & Ht) Hc]. by split_and!.
Qed.

(** ** A tick does not arm the next one *)

Lemma registrations_frame w w' :
  subscriptions (this w') = subscriptions (this w) → heap w' = heap w →
  registrations w' = registrations w.
Proof.
  intros Hs Hh. unfold registrations, registrations_of, set_at.
  by rewrite Hs, Hh.
Qed.

(** X10: On [window]'s primitives, when the pending timer fires and the
    callbacks do not unsubscribe, [tick] notifies the subscribers and arms
    nothing: afterwards no timer is pending although every subscriber is
    still registered, and [nextTickId] still holds the handle that fired. *)
Theorem tick_does_not_arm_the_next_tick behaviour initialTime ops id newTime :
  (∀ c, invokes (behaviour c) = []) →
  let w := run behaviour ops (new_TimeSync initialTime None None) in
  is_pending id (window w) = true →
  let w' := (timer_fires behaviour Window id newTime w).1.1 in
  pending (window w') = [] ∧ pending (injected w') = []
  ∧ registrations w' = registrations w
  ∧ nextTickId (this w') = Some id
  ∧ getValue w' = newTime.
Proof.
  intros Hinert w Hp w'.
  assert (H : window_only w ∧ one_timer w).
  { apply timers_run. split; [done|]. split; [done|by left]. }
  destruct H as [_ [Hinj Hwin]].
  assert (Hw' : w' = with_this (set_latestTime newTime)
                       (with_timers Window (timers_clear (Some id)) w)).
  { unfold w', timer_fires. cbn [timers_of]. rewrite Hp.
    rewrite tick_inert; [done|]. intros r _. apply Hinert. }
  rewrite Hw'. split_and!; try done.
  - apply pending_timer_fired; [|done].
    destruct Hwin as [?|(?&?&?&?)]; eauto.
  - destruct Hwin as [Hnil|(id' & d & Hone & Hid)].
    + unfold is_pending in Hp. rewrite Hnil in Hp.
      by apply bool_decide_eq_true, elem_of_nil in Hp.
    + unfold is_pending in Hp. rewrite Hone in Hp.
      apply bool_decide_eq_true, list_elem_of_singleton in Hp.
      simpl in *. by subst id'.
Qed.

(** ** What [subscribe] and an unsubscribe function change *)

Lemma active_shrinks w w' k c :
  wf w → shrinks w w' → active w' k c → active w k c.
Proof.
  intros Hwf Hsh (a & Ha & Hc). exists a. split.
  - eapply map_get_blanked; [apply Hwf|apply Hsh|done].
  - eapply elem_of_sublist; [done|].
    by apply blanked_live, shrinks_set_at.
Qed.

(** X11: An unsubscribe function whose [Set] is still the bucket of its
    interval removes the registration of its own callback at its own
    interval and no other: every other (interval, callback) pair is
    registered afterwards exactly if it was before. *)
Theorem unsubscribe_removes_only_its_own_registration u w k c :
  wf w →
  bucket w (interval_of u) = Some (subGroup u) →
  (k, c) ≠ (interval_of u, callback_of u) →
  let w' := unsubscribe u w in
  ¬ active w' (interval_of u) (callback_of u)
  ∧ (active w' k c ↔ active w k c).
Proof.
  intros Hwf Hown Hne w'. split.
  - intros (a & Ha & Hc).
    assert (Ha' : bucket w (interval_of u) = Some a).
    { eapply map_get_blanked; [apply Hwf|apply shrinks_unsubscribe|done]. }
    assert (a = subGroup u) by congruence. subst a.
    by apply (unsubscribe_gone u w).
  - split.
    + apply (active_shrinks w (unsubscribe u w));
        [done|apply shrinks_unsubscribe].
    + intros (a & Ha & Hc). exists a.
      apply unsubscribe_spares; [|done|done].
      apply (own_bucket_spares w); [done|done|done|].
      intros Heq. apply Hne. by rewrite Heq.
Qed.

Lemma active_subscribe r w k c :
  wf w →
  let w' := (subscribe r w).1 in
  active w' k c
  ↔ active w k c ∨ (k, c) = (maxUpdateIntervalMs r, callback r).
Proof.
  intros Hwf w'.
  destruct (subscribe_effect r w Hwf) as (_ & _ & _ & Hb & Hs).
  fold w' in Hb, Hs.
  set (sg := default (length (heap w)) (bucket w (maxUpdateIntervalMs r)))
    in *.
  assert (Hfresh : bucket w (maxUpdateIntervalMs r) = None →
                   set_at w sg = []).
  { intros Hn. unfold sg, set_at. rewrite Hn. simpl.
    by rewrite lookup_ge_None_2. }
  split.
  - intros (a & Ha & Hc). rewrite Hb in Ha. rewrite Hs in Hc.
    destruct (bucket w k) as [a0|] eqn:Hk.
    + injection Ha as ->. destruct (decide (sg = a)) as [Hsg|Hsg].
      * apply elem_of_set_add_inv in Hc as [Hc| ->]; [left; by exists a|].
        right. f_equal. subst a. unfold sg in Hk.
        destruct (bucket w (maxUpdateIntervalMs r)) as [a1|] eqn:Hr; simpl in *.
        -- by eapply (wf_inj _ Hwf).
        -- apply (wf_addr _ Hwf) in Hk. lia.
      * left. by exists a.
    + destruct (decide (maxUpdateIntervalMs r = k)) as [<-|]; [|done].
      injection Ha as <-. rewrite decide_True in Hc by done.
      rewrite (Hfresh Hk) in Hc.
      apply elem_of_set_add_inv in Hc as [Hc| ->]; [|by right].
      by apply elem_of_nil in Hc.
  - intros [(a & Ha & Hc)|[= -> ->]].
    + exists a. rewrite Hb, Ha, Hs. split; [done|].
      destruct (decide (sg = a)); [|done]. by apply elem_of_set_add_mono.
    + destruct (subscribe_active r w Hwf) as (Ha & Hc & _).
      by exists (subGroup (subscribe r w).2).
Qed.

(** X12: [subscribe] adds the registration it was asked for and changes no
    other: afterwards an (interval, callback) pair is registered exactly if
    it was registered before or is the requested one; the snapshot
    [getValue] returns is not changed. *)
Theorem subscribe_adds_exactly_one_registration r w k c :
  wf w →
  let w' := (subscribe r w).1 in
  (active w' k c
   ↔ active w k c ∨ (k, c) = (maxUpdateIntervalMs r, callback r))
  ∧ getValue w' = getValue w.
Proof.
  intros Hwf w'. split; [by apply active_subscribe|].
  apply latestTime_subscribe.
Qed.

Lemma heap_unsubscribe u w :
  heap (unsubscribe u w)
  = alter (λ s, set_delete s (callback (request u))) (subGroup u) (heap w).
Proof.
  unfold unsubscribe. destruct (_ =? _); [|done].
  by rewrite heap_scheduleNextTick.
Qed.

Lemma unsubscribe_keeps_bucket u w c' :
  c' ∈ live (set_at w (subGroup u)) → c' ≠ callback_of u →
  unsubscribe u w
  = with_heap (alter (λ s, set_delete s (callback (request u))) (subGroup u)) w.
Proof.
  intros Hc Hne. unfold unsubscribe.
  set (w1 := with_heap _ w).
  assert (Hin : c' ∈ live (set_at w1 (subGroup u))).
  { apply elem_of_after_delete; [|done]. intros _. by apply not_eq_sym. }
  unfold set_size. destruct (live (set_at w1 (subGroup u))) as [|x l].
  - by apply elem_of_nil in Hin.
  - done.
Qed.

(** X13: Subscribing at an interval that already has a bucket, and
    unsubscribing again while the bucket keeps another member, does not
    reschedule: the engine's fields and the timers of both timer systems
    are as before, through both steps. *)
Theorem shared_bucket_is_joined_and_left_without_rescheduling r w a c' :
  bucket w (maxUpdateIntervalMs r) = Some a →
  c' ∈ live (set_at w a) → c' ≠ callback r →
  let w1 := (subscribe r w).1 in
  let w2 := unsubscribe (subscribe r w).2 w1 in
  (this w1 = this w ∧ window w1 = window w ∧ injected w1 = injected w)
  ∧ (this w2 = this w ∧ window w2 = window w ∧ injected w2 = injected w)
  ∧ c' ∈ live (set_at w2 a) ∧ callback r ∉ live (set_at w2 a).
Proof.
  intros Ha Hc Hne. cbv zeta. rewrite (subscribe_existing r w a Ha).
  cbn [fst snd]. split; [done|].
  set (w1 := {| this := this w; heap := _; window := _; injected := _;
                closures := _ |}).
  set (u := {| subGroup := a; request := r |}).
  assert (Hc1 : c' ∈ live (set_at w1 a)).
  { assert (Hlt : a < length (heap w)).
    { apply lookup_lt_is_Some. unfold set_at in Hc.
      destruct (heap w !! a); [done|]. by apply elem_of_nil in Hc. }
    unfold set_at, w1. cbn [heap]. rewrite default_lookup_alter.
    rewrite decide_True by done. by apply elem_of_set_add_mono. }
  rewrite (unsubscribe_keeps_bucket u w1 c' Hc1 Hne).
  split; [done|]. split.
  - apply (elem_of_after_delete w1 u a c'); [|done].
    intros _. by apply not_eq_sym.
  - pose proof (unsubscribe_gone u w1) as Hgone.
    by rewrite (unsubscribe_keeps_bucket u w1 c' Hc1 Hne) in Hgone.
Qed.

(** ** Round trip *)

Lemma live_set_delete (s : JSSet) c :
  live (set_delete s c) = filter (λ x, x ≠ c) (live s).
Proof.
  induction s as [|[x|] s IH]; [done| |done].
  cbn [set_delete fmap list_fmap]. fold (set_delete s c).
  destruct (decide (Some x = Some c)) as [[= ->]|Hne].
  - rewrite live_cons_None, live_cons_Some, filter_cons, decide_False; [done|].
    by intros ?.
  - rewrite !live_cons_Some, filter_cons, decide_True, IH; [done|].
    by intros ->.
Qed.

Lemma live_map_delete (m : JSMap) k :
  live (map_delete m k) = filter (λ e, e.1 ≠ k) (live m).
Proof.
  induction m as [|[[k' a]|] m IH]; [done| |done].
  cbn [map_delete fmap list_fmap]. fold (map_delete m k).
  destruct (decide (k' = k)) as [->|Hne].
  - rewrite live_cons_None, live_cons_Some, filter_cons, decide_False; [done|].
    by intros ?.
  - by rewrite !live_cons_Some, filter_cons, decide_True, IH.
Qed.

Lemma filter_all {A} (P : A → Prop) `{∀ x, Decision (P x)} (l : list A) :
  Forall P l → filter P l = l.
Proof.
  induction 1 as [|x l Hx Hl IH]; [done|].
  by rewrite filter_cons, decide_True, IH.
Qed.

Lemma live_add_delete (s : JSSet) c :
  c ∉ live s → live (set_delete (set_add s c) c) = live s.
Proof.
  intros Hc. rewrite live_set_delete. unfold set_add, set_has.
  rewrite bool_decide_eq_false_2 by done.
  rewrite live_app, filter_app. change (live [Some c]) with [c].
  rewrite filter_cons, decide_False by (by intros ?).
  rewrite filter_nil, app_nil_r. apply filter_all, Forall_forall.
  by intros x Hx ->.
Qed.

Lemma registrations_of_live m m' w w' :
  live m' = live m →
  (∀ a, live (set_at w' a) = live (set_at w a)) →
  registrations_of m' w' = registrations_of m w.
Proof.
  intros Hm Hs. unfold registrations_of. rewrite Hm.
  apply list_bind_ext; [|done]. intros e. by rewrite Hs.
Qed.

Lemma subscriptions_unsubscribe u w :
  subscriptions (this (unsubscribe u w))
  = if set_size (set_at (unsubscribe u w) (subGroup u)) =? 0
    then map_delete (subscriptions (this w)) (interval_of u)
    else subscriptions (this w).
Proof.
  unfold set_at at 1. rewrite heap_unsubscribe.
  unfold unsubscribe, set_at. cbn [heap with_heap].
  destruct (_ =? _); [|done]. by rewrite subscriptions_scheduleNextTick.
Qed.

(** X14: Subscribing a callback that is not registered at the interval and
    then invoking the function [subscribe] returned is a round trip for the
    registrations: the same callbacks are registered at the same intervals,
    in the same order, and the bucket map has the same keys as before. *)
Theorem subscribe_then_unsubscribe_restores_registrations
    behaviour initialTime st ct ops r :
  (∀ c, invokes (behaviour c) = []) →
  let w := run behaviour ops (new_TimeSync initialTime st ct) in
  ¬ active w (maxUpdateIntervalMs r) (callback r) →
  let w1 := (subscribe r w).1 in
  let w2 := unsubscribe (subscribe r w).2 w1 in
  registrations w2 = registrations w
  ∧ map_keys (subscriptions (this w2)) = map_keys (subscriptions (this w))
  ∧ getValue w2 = getValue w.
Proof.
  intros Hinert w Hnot w1 w2.
  assert (Hacc : accounted w (foldl note [] ops)).
  { apply accounted_run; [done|]. apply accounted_new_TimeSync. }
  assert (Hwf : wf w) by apply Hacc.
  destruct (subscribe_effect r w Hwf) as (Hcl & _ & Hlt & Hb & Hs).
  fold w1 in Hcl, Hlt, Hb, Hs.
  set (k := maxUpdateIntervalMs r) in *. set (c := callback r) in *.
  set (sg := default (length (heap w)) (bucket w k)) in *.
  assert (Hsg : sg = default (length (heap w)) (bucket w k)) by done.
  clearbody sg.
  assert (Hu : (subscribe r w).2 = {| subGroup := sg; request := r |}).
  { rewrite Hsg. unfold k, bucket.
    destruct (map_get (subscriptions (this w)) (maxUpdateIntervalMs r))
      as [a|] eqn:Hget.
    - by rewrite (subscribe_existing r w a Hget).
    - by destruct (subscribe_new r w Hget) as (-> & _). }
  set (u := (subscribe r w).2) in *.
  assert (Hnotin : c ∉ live (set_at w sg)).
  { intros Hc. rewrite Hsg in Hc.
    destruct (bucket w k) as [a|] eqn:Hk; simpl in Hc.
    - apply Hnot. by exists a.
    - unfold set_at in Hc. rewrite lookup_ge_None_2 in Hc by done.
      by apply elem_of_nil in Hc. }
  assert (Hsets : ∀ a, live (set_at w2 a) = live (set_at w a)).
  { intros a. destruct (decide (a = sg)) as [->|Hne].
    - unfold w2. replace sg with (subGroup u) at 1 by (by rewrite Hu).
      rewrite set_at_unsubscribe by (by rewrite Hu).
      rewrite Hu. cbn [subGroup callback_of request].
      rewrite Hs, decide_True by done. by apply live_add_delete.
    - unfold w2. rewrite set_at_unsubscribe_frame by (by rewrite Hu).
      rewrite Hs, decide_False; [done|]. by intros ->. }
  assert (Hmap : live (subscriptions (this w2)) = live (subscriptions (this w))).
  { unfold w2. rewrite subscriptions_unsubscribe. fold w2.
    replace (subGroup u) with sg by (by rewrite Hu).
    unfold set_size. rewrite Hsets.
    replace (interval_of u) with k by (by rewrite Hu).
    destruct (bucket w k) as [a|] eqn:Hk; simpl in Hsg; subst sg.
    - pose proof (acc_nonempty _ _ Hacc k a Hk) as Hne.
      destruct (live (set_at w a)) as [|x l] eqn:Hl; [done|]. simpl.
      unfold w1. by rewrite (subscribe_existing r w a Hk).
    - assert (Hl : live (set_at w (length (heap w))) = []).
      { unfold set_at. by rewrite lookup_ge_None_2. }
      rewrite Hl. simpl.
      destruct (subscribe_new r w Hk) as (_ & Hsub & _). fold w1 in Hsub.
      rewrite Hsub, live_map_delete, live_app, filter_app.
      change (live [Some (maxUpdateIntervalMs r, length (heap w))])
        with [(k, length (heap w))].
      rewrite filter_cons, decide_False by (by intros ?).
      rewrite filter_nil, app_nil_r. apply filter_all, Forall_forall.
      intros [k' a'] He Heq. simpl in Heq. subst k'.
      apply map_get_None in Hk. apply Hk.
      apply list_elem_of_fmap. by exists (k, a'). }
  split_and!.
  - by apply registrations_of_live.
  - unfold map_keys. by rewrite Hmap.
  - unfold getValue, w2, w1.
    by rewrite latestTime_unsubscribe, latestTime_subscribe.
Qed.

(** ** One notification per bucket *)

(** X15: A tick does not deduplicate callbacks across buckets: with
    callbacks that return without touching the engine, a callback registered
    at two intervals is called once through each of them, so at least twice
    in the one tick. *)
Theorem tick_notifies_once_per_bucket behaviour newTime w k1 k2 c :
  wf w →
  Forall (λ r, behaviour r.2 = quiet) (registrations w) →
  active w k1 c → active w k2 c → k1 ≠ k2 →
  let ns := (tick behaviour newTime w).1.2 in
  times_notified k1 c ns = 1
  ∧ times_notified k2 c ns = 1
  ∧ 2 ≤ length (filter (λ r, r.2 = c) (reg <$> ns)).
Proof.
  intros Hwf Hquiet H1 H2 Hne ns.
  destruct (tick_quiet behaviour newTime w Hquiet) as [Hreg _].
  fold ns in Hreg.
  apply registrations_active in H1; [|apply Hwf].
  apply registrations_active in H2; [|apply Hwf].
  pose proof (NoDup_registrations w Hwf) as Hnd.
  unfold times_notified. rewrite Hreg. split_and!.
  - by apply filter_eq_NoDup.
  - by apply filter_eq_NoDup.
  - change 2 with (length [(k1, c); (k2, c)]).
    apply submseteq_length, NoDup_submseteq.
    + apply NoDup_cons. split; [|apply NoDup_singleton].
      intros [=]%list_elem_of_singleton. done.
    + intros x Hx. apply list_elem_of_filter.
      apply elem_of_cons in Hx as [->|Hx]; [done|].
      apply list_elem_of_singleton in Hx. by subst x.
Qed.

(** ** [cleanup] *)

Lemma scheduleNextTick_due w k :
  k ∈ map_keys (subscriptions (this w)) → num_lt k Infinity = true →
  ∃ id, nextTickId (this (scheduleNextTick w)) = Some id
        ∧ (id, Infinity)
            ∈ pending (timers_of (setTimeout (this w)) (scheduleNextTick w)).
Proof.
  intros Hk Hlt. rewrite scheduleNextTick_spec. cbv zeta.
  destruct (strict_eq _ _) eqn:He.
  { rewrite earliest_Infinity in He. by rewrite (He k Hk) in Hlt. }
  eexists. split; [done|].
  destruct (setTimeout (this w)), (clearTimeout (this w)); simpl;
    apply elem_of_app; right; left.
Qed.



(** ** The providers' effects *)

(** X17: [TimeProvider]'s effect calls [cleanup] when the provider mounts
    and hands React no destructor.  Whatever was subscribed before the
    effect runs keeps its registration but, on [window]'s primitives, has no
    timer left; and a timer armed later is still pending after the provider
    has unmounted. *)
Theorem TimeProvider_cleans_up_at_mount_only
    behaviour initialTime before later :
  let w := run behaviour before (new_TimeSync initialTime None None) in
  let mounted := TimeProvider_effect w in
  let w' := run behaviour later mounted.1 in
  mounted.2 = None
  ∧ registrations mounted.1 = registrations w
  ∧ pending (window mounted.1) = []
  ∧ unmount mounted.2 w' = w'.
Proof.
  intros w mounted w'.
  assert (H : window_only w ∧ one_timer w).
  { apply timers_run. split; [done|]. split; [done|by left]. }
  destruct (timers_step behaviour w OpCleanup H) as [_ [_ Hc]].
  simpl in Hc. destruct H as [_ [_ Hwin]].
  split_and!; [done| |  |done].
  - apply registrations_frame; unfold mounted, TimeProvider_effect, cleanup;
      simpl; by destruct (nextTickId (this w)).
  - unfold mounted, TimeProvider_effect. cbn [fst].
    destruct Hc as [?|(id & d & Hone & Hid)]; [done|].
    unfold cleanup in *.
    destruct (nextTickId (this w)) eqn:Hrec; simpl in *; congruence.
Qed.

(** * The React binding *)

(** ** Hydration *)

Lemma swap_placeholders_skip toString matches attr tr t before doc :
  Forall (λ el, matches el = false) before →
  swap_placeholders toString matches attr tr t (before ++ doc)
  = (before ++ (swap_placeholders toString matches attr tr t doc).1,
     (swap_placeholders toString matches attr tr t doc).2).
Proof.
  induction 1 as [|el before Hel _ IH]; simpl.
  - by destruct (swap_placeholders _ _ _ _ _ doc).
  - rewrite Hel, IH. done.
Qed.

Lemma ById_matches_placeholder hookId :
  ById.matches (ById.placeholder hookId) = true.
Proof. done. Qed.

(** X19: In the version that finds placeholders through their [id], the
    swap fails on the first placeholder the hook itself rendered: the span
    has an [id] but no attribute named [data-useTimeSync-ssr], so the effect
    throws, no text is swapped, no destructor is returned and the tracker
    is left with [processable] false. *)
Theorem ById_swap_throws_on_the_hook_placeholder
    toString w tr config before hookId after :
  Forall (λ el, ById.matches el = false) before →
  let doc := before ++ ById.placeholder hookId :: after in
  ById.useTimeSync toString (Some w) (Some tr) config hookId true
  = Ok (Span (ById.placeholder hookId))
  ∧ ById.swapper_effect toString true w tr doc
    = (doc, set_processable false tr, Throw no_hook_id).
Proof.
  intros Hbefore doc. split; [done|].
  unfold ById.swapper_effect. cbn [negb].
  assert (Hlen : (length (filter (λ el, ById.matches el = true) doc) =? 0)
                 = false).
  { unfold doc. rewrite filter_app, filter_cons, decide_True
      by apply ById_matches_placeholder.
    rewrite length_app. simpl. apply Nat.eqb_neq. lia. }
  rewrite Hlen. unfold doc at 1.
  rewrite swap_placeholders_skip by done.
  cbn [swap_placeholders]. rewrite ById_matches_placeholder.
  done.
Qed.

Lemma mount_all_lookup hooks tr :
  processable tr = true → NoDup hooks.*1 →
  processable (mount_all hooks tr) = true
  ∧ (∀ h, h ∈ hooks →
          components (mount_all hooks tr) !! h.1 = Some (config_formatter h.2))
  ∧ (∀ i, i ∉ hooks.*1 →
          components (mount_all hooks tr) !! i = components tr !! i).
Proof.
  revert tr. induction hooks as [|[i0 c0] hooks IH]; intros tr Hp Hnd.
  { split_and!; [done| |done]. intros h Hh. by apply elem_of_nil in Hh. }
  apply NoDup_cons in Hnd as [Hi0 Hnd]. simpl.
  set (tr1 := register i0 c0 tr).
  assert (Hp1 : processable tr1 = true).
  { unfold tr1, register. by rewrite Hp. }
  assert (Hc1 : components tr1 = <[i0 := config_formatter c0]> (components tr)).
  { unfold tr1, register. by rewrite Hp. }
  destruct (IH tr1 Hp1 Hnd) as (IHp & IHin & IHout).
  split_and!; [done| |].
  - intros h [->|Hh]%elem_of_cons; [|by apply IHin].
    simpl. rewrite IHout by done. by rewrite Hc1, lookup_insert_eq.
  - intros i Hi. apply not_elem_of_cons in Hi as [Hne Hi].
    rewrite IHout by done. by rewrite Hc1, lookup_insert_ne.
Qed.

Lemma ByAttribute_swap_all toString tr t hooks :
  (∀ h, h ∈ hooks → components tr !! h.1 = Some (config_formatter h.2)) →
  swap_placeholders toString ByAttribute.matches
    ByAttribute.SSR_HOOK_ID_DATA_ATTRIBUTE tr t
    ((λ h, ByAttribute.placeholder h.1) <$> hooks)
  = ((λ h, set_innerText (client_text toString h.2 t)
             (ByAttribute.placeholder h.1)) <$> hooks,
     Ok ()).
Proof.
  induction hooks as [|[i c] hooks IH]; intros Hall; [done|].
  rewrite !fmap_cons. cbn [fst snd swap_placeholders].
  change (ByAttribute.matches (ByAttribute.placeholder i)) with true.
  change (getAttribute (attributes (ByAttribute.placeholder i))
            ByAttribute.SSR_HOOK_ID_DATA_ATTRIBUTE) with (Some i).
  cbv iota beta.
  rewrite IH.
  2:{ intros h Hh. apply Hall. by right. }
  assert (Htext : swapped_text toString tr i t = client_text toString c t).
  { unfold swapped_text, client_text.
    assert (Hl : components tr !! i = Some (config_formatter c)).
    { apply (Hall (i, c)). left. }
    rewrite Hl. by destruct (config_formatter c). }
  by rewrite Htext.
Qed.

(** X20: In the version that marks placeholders with data attributes, when
    every hook (with its own hook id) has mounted, the swap writes into each
    hook's placeholder exactly the text the hook returns on its next client
    render: its formatter applied to [getValue()], or [toString()] of it.
    The effect does not throw and returns the destructor that reopens the
    tracker. *)
Theorem ByAttribute_swap_shows_what_the_hook_renders_next toString w hooks :
  NoDup hooks.*1 →
  let tr := mount_all hooks new_tracker in
  let doc := (λ h, ByAttribute.placeholder h.1) <$> hooks in
  ∃ doc',
    ByAttribute.swapper_effect toString true w tr doc
    = (doc', set_processable false tr, Ok (Some (set_processable true)))
    ∧ Forall2
        (λ h el,
           ByAttribute.useTimeSync toString (Some w) (Some tr) h.2 h.1 true
           = Ok (Span (ByAttribute.placeholder h.1))
           ∧ attributes el = attributes (ByAttribute.placeholder h.1)
           ∧ ByAttribute.useTimeSync toString (Some w) (Some tr) h.2 h.1 false
             = Ok (Text (innerText el)))
        hooks doc'.
Proof.
  intros Hnd tr doc.
  destruct (mount_all_lookup hooks new_tracker eq_refl Hnd) as (_ & Hin & _).
  fold tr in Hin.
  exists ((λ h, set_innerText (client_text toString h.2 (getValue w))
                  (ByAttribute.placeholder h.1)) <$> hooks).
  split.
  - unfold ByAttribute.swapper_effect. cbn [negb].
    unfold doc. by rewrite (ByAttribute_swap_all toString _ _ hooks).
  - apply Forall2_fmap_r, Forall_Forall2_diag, Forall_forall.
    intros [i c] _. done.
Qed.

(** X21: While the swapper's effect is in place in a browser, the tracker
    is closed: a hook that mounts then does not register its formatter, in
    either version and whether or not the swap threw.  The destructor, when
    one was returned, reopens it.  Without [window] the effect does
    nothing. *)
Theorem hydration_closes_the_formatter_tracker
    toString w tr doc hookId config :
  let a := ById.swapper_effect toString true w tr doc in
  let b := ByAttribute.swapper_effect toString true w tr doc in
  (register hookId config a.1.2 = a.1.2 ∧ components a.1.2 = components tr)
  ∧ (register hookId config b.1.2 = b.1.2 ∧ components b.1.2 = components tr)
  ∧ (∀ reopen tr',
       a.2 = Ok (Some reopen) ∨ b.2 = Ok (Some reopen) →
       components (register hookId config (reopen tr')) !! hookId
       = Some (config_formatter config))
  ∧ ById.swapper_effect toString false w tr doc = (doc, tr, Ok None)
  ∧ ByAttribute.swapper_effect toString false w tr doc = (doc, tr, Ok None).
Proof.
  intros a b.
  assert (Ha : a.1.2 = set_processable false tr
               ∧ ∀ reopen, a.2 = Ok (Some reopen) →
                           reopen = set_processable true).
  { unfold a, ById.swapper_effect. cbn [negb].
    destruct (_ =? _); [split; [done|by intros ? [= <-]]|].
    destruct (swap_placeholders _ _ _ _ _ _) as [d [[]|m]];
      (split; [done|]); by intros ? [= <-]. }
  assert (Hb : b.1.2 = set_processable false tr
               ∧ ∀ reopen, b.2 = Ok (Some reopen) →
                           reopen = set_processable true).
  { unfold b, ByAttribute.swapper_effect. cbn [negb].
    destruct (swap_placeholders _ _ _ _ _ _) as [d [[]|m]];
      (split; [done|]); by intros ? [= <-]. }
  destruct Ha as [-> Ha], Hb as [-> Hb].
  split_and!; try done.
  intros reopen tr' Hr.
  assert (reopen = set_processable true) as ->.
  { destruct Hr; [by apply Ha|by apply Hb]. }
  unfold register. simpl. apply lookup_insert_eq.
Qed.

(** ** Hooks that do not ask for an interval *)

Lemma never_due_OpMount config notifyReact :
  config ≫= targetUpdateIntervalMs = None →
  never_due (OpMount config notifyReact).
Proof. intros H. unfold OpMount, never_due, config_interval. by rewrite H. Qed.

Lemma active_run_snoc behaviour ops r w k c :
  wf w →
  active (run behaviour (ops ++ [OpSubscribe r]) w) k c
  ↔ active (run behaviour ops w) k c
    ∨ (k, c) = (maxUpdateIntervalMs r, callback r).
Proof.
  intros Hwf. unfold run. rewrite foldl_app. simpl.
  apply active_subscribe. by apply wf_run.
Qed.

(** X22: Components whose [useTimeSync] configuration has no
    [targetUpdateIntervalMs] subscribe at [Infinity].  With only such
    components mounted on the default engine, each of them is registered in
    the bucket of [Infinity], no timer is armed, and no timer event of
    either timer system delivers a notification: they never re-render. *)
Theorem hooks_with_the_default_interval_are_never_notified
    behaviour initialTime (hooks : list (option UseTimeConfig * Callback)) :
  Forall (λ h, h.1 ≫= targetUpdateIntervalMs = None) hooks →
  let w := run behaviour ((λ h, OpMount h.1 h.2) <$> hooks)
             (defaultCreateTimeSync initialTime) in
  (∀ h, h ∈ hooks →
        (hook_subscribe h.1 h.2 w).1 = step behaviour w (OpMount h.1 h.2)
        ∧ active w Infinity h.2)
  ∧ pending (window w) = [] ∧ pending (injected w) = []
  ∧ (∀ p id newTime,
       timer_fires behaviour p id newTime w = (w, [], Returned))
  ∧ getValue w = initialTime.
Proof.
  intros Hhooks w.
  assert (Hact : ∀ h, h ∈ hooks → active w Infinity h.2).
  { subst w. induction hooks as [|h' hooks IH] using rev_ind; intros h Hh.
    { by apply elem_of_nil in Hh. }
    apply Forall_app in Hhooks as [Hhooks Hh'].
    apply Forall_inv in Hh'. cbv beta in Hh'.
    rewrite fmap_app. cbn [fmap list_fmap]. unfold OpMount at 2.
    apply active_run_snoc; [apply wf_new_TimeSync|].
    apply elem_of_app in Hh as [Hh|Hh].
    + left. by apply IH.
    + apply list_elem_of_singleton in Hh. subst h'. right. simpl.
      unfold config_interval. by rewrite Hh'. }
  assert (Hidle : idle initialTime w).
  { apply idle_run; [|apply idle_new_TimeSync].
    apply Forall_fmap. eapply Forall_impl; [done|].
    intros h Hh. by apply never_due_OpMount. }
  destruct Hidle as (_ & Hw & Hi & _ & Ht).
  split_and!; try done.
  - intros h Hh. split; [done|]. by apply Hact.
  - intros p id newTime. unfold timer_fires, is_pending.
    destruct p; simpl; by rewrite ?Hw, ?Hi.
Qed.

(** ** No timer without a due bucket *)

Lemma armed_scheduleNextTick w :
  window_only w → one_timer w → armed_only_when_due (scheduleNextTick w).
Proof.
  intros [Hst Hct] [Hinj Hwin]. unfold armed_only_when_due.
  rewrite subscriptions_scheduleNextTick, scheduleNextTick_spec.
  rewrite Hst, Hct. cbn [with_timers timers_of window].
  assert (Hclear : pending (timers_clear (nextTickId (this w)) (window w)) = []).
  { destruct Hwin as [Hnil|(id & d & Hone & Hid)].
    - unfold timers_clear. destruct (nextTickId (this w)); [|done].
      simpl. by rewrite Hnil.
    - rewrite Hid. simpl. rewrite Hone.
      rewrite filter_cons, decide_False; [done|]. simpl. by intros []. }
  destruct (strict_eq _ _) eqn:He; [by left|right].
  exists (earliest (map_keys (subscriptions (this w)))).
  destruct (earliest_least (map_keys (subscriptions (this w)))) as [_ Hin].
  pose proof (earliest_not_NaN (map_keys (subscriptions (this w)))) as HNaN.
  destruct Hin as [Heq|Hin]; [by rewrite Heq in He|].
  split; [done|].
  by destruct (earliest (map_keys (subscriptions (this w)))).
Qed.

Lemma armed_unsubscribe u w :
  window_only w ∧ one_timer w ∧ armed_only_when_due w →
  window_only (unsubscribe u w) ∧ one_timer (unsubscribe u w)
  ∧ armed_only_when_due (unsubscribe u w).
Proof.
  intros (Hw & H1 & Ha).
  destruct (timers_unsubscribe u w (conj Hw H1)) as [Hw' H1'].
  split_and!; [done|done|].
  unfold unsubscribe. destruct (_ =? _); [|done].
  by apply armed_scheduleNextTick.
Qed.

Lemma armed_subscribe r w :
  window_only w ∧ one_timer w ∧ armed_only_when_due w →
  armed_only_when_due (subscribe r w).1.
Proof.
  intros (Hw & H1 & Ha). unfold subscribe, new_Set.
  destruct (map_get _ _); simpl; destruct (map_has _ _); simpl; try done;
    by apply (armed_scheduleNextTick _).
Qed.

Lemma armed_step behaviour w op :
  window_only w ∧ one_timer w ∧ armed_only_when_due w →
  armed_only_when_due (step behaviour w op).
Proof.
  intros (Hw & H1 & Ha).
  destruct op; simpl.
  - by apply armed_subscribe.
  - unfold invoke. destruct (_ !! _); [|done]. by apply armed_unsubscribe.
  - done.
  - destruct (timers_step behaviour w OpCleanup (conj Hw H1)) as [_ [_ Hc]].
    simpl in Hc. left. destruct Hc as [?|(id & d & Hone & Hid)]; [done|].
    destruct H1 as [_ Hwin]. unfold cleanup in *.
    destruct (nextTickId (this w)) eqn:Hrec; simpl in *; congruence.
  - unfold timer_fires. destruct (is_pending _ _) eqn:Hp; [|done].
    apply (tick_preserves behaviour
             (λ w, window_only w ∧ one_timer w ∧ armed_only_when_due w)).
    + intros u w'. apply armed_unsubscribe.
    + done.
    + destruct H1 as [Hinj Hwin]. destruct p; simpl in *.
      * assert (Hnil : pending (timers_clear (Some id) (window w)) = []).
        { apply pending_timer_fired; [|done].
          destruct Hwin as [?|(?&?&?&?)]; eauto. }
        split_and!; [done|by split; [|left]|by left].
      * unfold is_pending in Hp. rewrite Hinj in Hp.
        by apply bool_decide_eq_true, elem_of_nil in Hp.
Qed.

(** X23: On [window]'s primitives the engine keeps no timer running for
    nobody: whatever is done to it, a timer is pending only while the
    bucket map holds an interval below [Infinity]. *)
Theorem timer_pending_only_while_a_bucket_is_due behaviour initialTime ops :
  let w := run behaviour ops (new_TimeSync initialTime None None) in
  pending (window w) = []
  ∨ ∃ k, k ∈ map_keys (subscriptions (this w)) ∧ num_lt k Infinity = true.
Proof.
  cbv zeta.
  assert (H0 : window_only (new_TimeSync initialTime None None)
               ∧ one_timer (new_TimeSync initialTime None None)
               ∧ armed_only_when_due (new_TimeSync initialTime None None)).
  { split_and!; [done|by split; [|left]|by left]. }
  revert H0. generalize (new_TimeSync initialTime None None).
  induction ops as [|op ops IH]; intros w0 H0; [apply H0|].
  simpl. apply IH. destruct H0 as (Hw & H1 & Ha).
  destruct (timers_step behaviour w0 op (conj Hw H1)) as [Hw' H1'].
  split_and!; [done|done|]. by apply armed_step.
Qed.

(** * Instances of the further properties *)

Lemma scheduleNextTick_only_cancels_when_nothing_is_due_witness :
  let w := run all_quiet [OpSubscribe (req 1 Infinity)] default_engine in
  (∀ k, k ∈ map_keys (subscriptions (this w)) → num_lt k Infinity = false)
  ∧ this (scheduleNextTick w) = this w.
Proof.
  intros w.
  assert (H : ∀ k, k ∈ map_keys (subscriptions (this w)) →
                   num_lt k Infinity = false).
  { intros k Hk. apply list_elem_of_singleton in Hk. by subst k. }
  split; [exact H|].
  exact (proj1 (proj2
           (scheduleNextTick_only_cancels_when_nothing_is_due w H))).
Defined.

Lemma no_bucket_is_empty_witness :
  (∀ c, invokes (all_quiet c) = [])
  ∧ Finite 1000
      ∈ map_keys (subscriptions
                    (this (run all_quiet three_subscribers
                             (new_TimeSync 0%Z None None))))
  ∧ (∃ c, active (run all_quiet three_subscribers
                    (new_TimeSync 0%Z None None)) (Finite 1000) c).
Proof.
  assert (H1 : ∀ c, invokes (all_quiet c) = []) by done.
  assert (H2 : Finite 1000
      ∈ map_keys (subscriptions
                    (this (run all_quiet three_subscribers
                             (new_TimeSync 0%Z None None))))) by left.
  split_and!; [exact H1|exact H2|].
  exact (proj1 (no_bucket_is_empty all_quiet 0%Z None None three_subscribers
                  (Finite 1000) H1 H2)).
Defined.

Lemma well_behaved_client_is_tracked_witness :
  let ops := three_subscribers ++ [OpUnsubscribe 1] in
  (∀ c, invokes (all_quiet c) = [])
  ∧ well_behaved [] ops
  ∧ (∀ k, k ∈ map_keys (subscriptions
                          (this (run all_quiet ops
                                   (new_TimeSync 0%Z None None))))
          ↔ k ∈ live_intervals ops).
Proof.
  intros ops.
  assert (H1 : ∀ c, invokes (all_quiet c) = []) by done.
  assert (H2 : well_behaved [] ops).
  { simpl. split_and!; try done.
    - apply not_elem_of_nil.
    - by intros [=]%list_elem_of_singleton.
    - rewrite !not_elem_of_cons. split_and!; try done. apply not_elem_of_nil.
    - by eexists. }
  split_and!; [exact H1|exact H2|].
  exact (proj2 (well_behaved_client_is_tracked all_quiet 0%Z None None ops
                  H1 H2)).
Defined.

Lemma subscriptions_at_Infinity_never_arm_a_timer_witness :
  let ops := [OpMount None 1; OpMount None 2; OpUnsubscribe 0;
              OpTimerFires Window 1 5%Z; OpCleanup] in
  Forall never_due ops
  ∧ pending (window (run all_quiet ops (defaultCreateTimeSync 3%Z))) = []
  ∧ getValue (run all_quiet ops (defaultCreateTimeSync 3%Z)) = 3%Z.
Proof.
  intros ops.
  assert (H : Forall never_due ops) by (repeat constructor).
  pose proof (subscriptions_at_Infinity_never_arm_a_timer all_quiet 3%Z
                None None ops H) as (Hw & _ & _ & _ & Hv).
  by split_and!.
Defined.

Lemma tick_does_not_arm_the_next_tick_witness :
  let w := run all_quiet three_subscribers (new_TimeSync 0%Z None None) in
  (∀ c, invokes (all_quiet c) = [])
  ∧ is_pending 2 (window w) = true
  ∧ pending (window (timer_fires all_quiet Window 2 7%Z w).1.1) = []
  ∧ registrations (timer_fires all_quiet Window 2 7%Z w).1.1
    = registrations w.
Proof.
  intros w.
  assert (H1 : ∀ c, invokes (all_quiet c) = []) by done.
  assert (H2 : is_pending 2 (window w) = true) by (vm_compute; reflexivity).
  pose proof (tick_does_not_arm_the_next_tick all_quiet 0%Z three_subscribers
                2 7%Z H1 H2) as (Hp & _ & Hr & _).
  by split_and!.
Defined.

Lemma unsubscribe_removes_only_its_own_registration_witness :
  let w := run all_quiet three_subscribers default_engine in
  let u := {| subGroup := 0; request := req 3 (Finite 1000) |} in
  wf w
  ∧ bucket w (interval_of u) = Some (subGroup u)
  ∧ (Finite 1000, 1) ≠ (interval_of u, callback_of u)
  ∧ ¬ active (unsubscribe u w) (Finite 1000) 3
  ∧ (active (unsubscribe u w) (Finite 1000) 1 ↔ active w (Finite 1000) 1).
Proof.
  intros w u.
  assert (H1 : wf w) by apply wf_run, wf_new_TimeSync.
  assert (H2 : bucket w (interval_of u) = Some (subGroup u))
    by (vm_compute; reflexivity).
  assert (H3 : (Finite 1000, 1) ≠ (interval_of u, callback_of u))
    by (by intros [=]).
  pose proof (unsubscribe_removes_only_its_own_registration u w
                (Finite 1000) 1 H1 H2 H3) as [Ha Hb].
  by split_and!.
Defined.

Lemma subscribe_adds_exactly_one_registration_witness :
  let w := run all_quiet three_subscribers default_engine in
  let r := req 4 (Finite 5000) in
  wf w
  ∧ (active (subscribe r w).1 (Finite 5000) 4
     ↔ active w (Finite 5000) 4
       ∨ (Finite 5000, 4) = (maxUpdateIntervalMs r, callback r)).
Proof.
  intros w r.
  assert (H1 : wf w) by apply wf_run, wf_new_TimeSync.
  split; [exact H1|].
  exact (proj1 (subscribe_adds_exactly_one_registration r w (Finite 5000) 4
                  H1)).
Defined.

Lemma shared_bucket_is_joined_and_left_without_rescheduling_witness :
  let w := run all_quiet three_subscribers default_engine in
  let r := req 4 (Finite 1000) in
  bucket w (maxUpdateIntervalMs r) = Some 0
  ∧ 1 ∈ live (set_at w 0)
  ∧ 1 ≠ callback r
  ∧ window (unsubscribe (subscribe r w).2 (subscribe r w).1) = window w.
Proof.
  intros w r.
  assert (H1 : bucket w (maxUpdateIntervalMs r) = Some 0)
    by (vm_compute; reflexivity).
  assert (H2 : 1 ∈ live (set_at w 0)) by left.
  assert (H3 : 1 ≠ callback r) by done.
  pose proof (shared_bucket_is_joined_and_left_without_rescheduling r w 0 1
                H1 H2 H3) as (_ & (_ & Hw & _) & _).
  by split_and!.
Defined.

Lemma subscribe_then_unsubscribe_restores_registrations_witness :
  let w := run all_quiet three_subscribers (new_TimeSync 0%Z None None) in
  let r := req 4 (Finite 250) in
  (∀ c, invokes (all_quiet c) = [])
  ∧ ¬ active w (maxUpdateIntervalMs r) (callback r)
  ∧ registrations (unsubscribe (subscribe r w).2 (subscribe r w).1)
    = registrations w.
Proof.
  intros w r.
  assert (H1 : ∀ c, invokes (all_quiet c) = []) by done.
  assert (H2 : ¬ active w (maxUpdateIntervalMs r) (callback r)).
  { intros (a & Ha & _). vm_compute in Ha. discriminate Ha. }
  pose proof (subscribe_then_unsubscribe_restores_registrations all_quiet 0%Z
                None None three_subscribers r H1 H2) as (Hr & _).
  by split_and!.
Defined.

Lemma tick_notifies_once_per_bucket_witness :
  let w := run all_quiet [OpSubscribe (req 1 (Finite 1000));
                          OpSubscribe (req 1 (Finite 5000))] default_engine in
  wf w
  ∧ Forall (λ r, all_quiet r.2 = quiet) (registrations w)
  ∧ active w (Finite 1000) 1 ∧ active w (Finite 5000) 1
  ∧ Finite 1000 ≠ Finite 5000
  ∧ 2 ≤ length (filter (λ r, r.2 = 1) (reg <$> (tick all_quiet 7%Z w).1.2)).
Proof.
  intros w.
  assert (H1 : wf w) by apply wf_run, wf_new_TimeSync.
  assert (H2 : Forall (λ r, all_quiet r.2 = quiet) (registrations w)).
  { by apply Forall_forall. }
  assert (H3 : active w (Finite 1000) 1).
  { exists 0. split; [done|left]. }
  assert (H4 : active w (Finite 5000) 1).
  { exists 1. split; [done|left]. }
  assert (H5 : Finite 1000 ≠ Finite 5000) by done.
  pose proof (tick_notifies_once_per_bucket all_quiet 7%Z w (Finite 1000)
                (Finite 5000) 1 H1 H2 H3 H4 H5) as (_ & _ & Hn).
  by split_and!.
Defined.


Lemma ById_swap_throws_on_the_hook_placeholder_witness :
  let root := {| attributes := [("id", "root")]; innerText := "app" |} in
  let w := defaultCreateTimeSync 3%Z in
  Forall (λ el, ById.matches el = false) [root]
  ∧ ById.swapper_effect (λ _, "now") true w new_tracker
      ([root] ++ ById.placeholder ":r0:" :: [])
    = ([root] ++ ById.placeholder ":r0:" :: [],
       set_processable false new_tracker, Throw no_hook_id).
Proof.
  intros root w.
  assert (H : Forall (λ el, ById.matches el = false) [root])
    by (by repeat constructor).
  split; [exact H|].
  exact (proj2 (ById_swap_throws_on_the_hook_placeholder (λ _, "now") w
                  new_tracker None [root] ":r0:" [] H)).
Defined.

Lemma ByAttribute_swap_shows_what_the_hook_renders_next_witness :
  let hooks :=
    [(":r0:", None);
     (":r1:", Some {| formatter := Some (λ _, "12:00");
                      targetUpdateIntervalMs := None |})] in
  NoDup hooks.*1
  ∧ ∃ doc',
      ByAttribute.swapper_effect (λ _, "now") true (defaultCreateTimeSync 3%Z)
        (mount_all hooks new_tracker)
        ((λ h, ByAttribute.placeholder h.1) <$> hooks)
      = (doc', set_processable false (mount_all hooks new_tracker),
         Ok (Some (set_processable true)))
      ∧ innerText <$> doc' = ["now"; "12:00"].
Proof.
  intros hooks.
  assert (H : NoDup hooks.*1).
  { apply NoDup_cons. split; [|apply NoDup_singleton].
    by intros [=]%list_elem_of_singleton. }
  split; [exact H|].
  destruct (ByAttribute_swap_shows_what_the_hook_renders_next (λ _, "now")
              (defaultCreateTimeSync 3%Z) hooks H) as (doc' & Heq & Hall).
  exists doc'. split; [exact Heq|].
  apply Forall2_cons_inv_l in Hall as (e0 & l0 & (_ & _ & [= H0]) & Hall & ->).
  apply Forall2_cons_inv_l in Hall as (e1 & l1 & (_ & _ & [= H1]) & Hall & ->).
  apply Forall2_nil_inv_l in Hall as ->.
  simpl. by rewrite <- H0, <- H1.
Defined.

Lemma hooks_with_the_default_interval_are_never_notified_witness :
  let hooks :=
    [(None, 1);
     (Some {| formatter := Some (λ _, "12:00");
              targetUpdateIntervalMs := None |}, 2)] in
  Forall (λ h : option UseTimeConfig * Callback,
            h.1 ≫= targetUpdateIntervalMs = None) hooks
  ∧ ∀ p id newTime,
      timer_fires all_quiet p id newTime
        (run all_quiet ((λ h, OpMount h.1 h.2) <$> hooks)
           (defaultCreateTimeSync 3%Z))
      = (run all_quiet ((λ h, OpMount h.1 h.2) <$> hooks)
           (defaultCreateTimeSync 3%Z), [], Returned).
Proof.
  intros hooks.
  assert (H : Forall (λ h : option UseTimeConfig * Callback,
                        h.1 ≫= targetUpdateIntervalMs = None) hooks)
    by (by repeat constructor).
  pose proof (hooks_with_the_default_interval_are_never_notified all_quiet 3%Z
                hooks H) as (_ & _ & _ & Hf & _).
  by split.
Defined.

(** * What a tick delivers, and the state it leaves *)

Section Trace.

Variable behaviour : Callback → Script.







End Trace.









(** C8: callback 3 is subscribed at 500 ms, callback 1 at 1000 ms and
    unsubscribed again, then callback 2 at 1000 ms.  In the tick callback 3
    invokes its own unsubscribe function and the one of callback 1.  Nobody
    throws and nobody invokes the function of callback 2, which is
    registered when the tick starts; it is not notified in that tick, and
    is not registered afterwards. *)
Theorem unsubscribing_in_a_callback_skips_a_subscriber :
  let w := run all_quiet stale_inside_tick default_engine in
  let r := tick third_invokes_stale 7%Z w in
  registrations w = [(Finite 500, 3); (Finite 1000, 2)]
  ∧ request <$> closures w
    = [req 3 (Finite 500); req 1 (Finite 1000); req 2 (Finite 1000)]
  ∧ invocations third_invokes_stale r.1.2 = [0; 1]
  ∧ r.2 = Returned
  ∧ reg <$> r.1.2 = [(Finite 500, 3)]
  ∧ times_notified (Finite 1000) 2 r.1.2 = 0
  ∧ registrations r.1.1 = []
  ∧ (tick all_quiet 8%Z r.1.1).1.2 = [].
Proof. by vm_compute. Qed.

(** C10: callback 9 is subscribed at 1000 ms and unsubscribed, callbacks 1
    and 2 are subscribed at 1000 ms, and the function of callback 9 is
    invoked once more.  Callback 1 has been subscribed once and not
    unsubscribed.  Subscribing it at 1000 ms a second time is not idempotent:
    it makes a new bucket and arms a timer, and the function returned is not
    the first one; and invoking the first function leaves callback 1
    registered, so the next tick still notifies it. *)
Theorem second_subscribe_after_stale_unsubscribe_is_not_idempotent :
  let w := run all_quiet stale_before_resubscribe default_engine in
  let r := req 1 (Finite 1000) in
  let w2 := (subscribe r w).1 in
  closures w !! 1 = Some {| subGroup := 1; request := r |}
  ∧ live (set_at w 1) = [1; 2]
  ∧ (subscribe r w).2 = {| subGroup := 2; request := r |}
  ∧ observable w = ([], [], [])
  ∧ observable w2 = ([(Finite 1000, 1)], [(3, Infinity)], [])
  ∧ registrations (invoke 1 w2) = [(Finite 1000, 1)]
  ∧ reg <$> (tick all_quiet 7%Z (invoke 1 w2)).1.2 = [(Finite 1000, 1)].
Proof. by vm_compute. Qed.

(** * The destructor of [TimeSyncProvider]'s effect *)

Lemma unsubscribe_empties u w :
  live (set_at (unsubscribe u w) (subGroup u)) = [] →
  unsubscribe u w
  = scheduleNextTick
      (with_this
         (λ s, set_subscriptions
                 (map_delete (subscriptions s)
                    (maxUpdateIntervalMs (request u))) s)
         (with_heap
            (alter (λ s, set_delete s (callback (request u))) (subGroup u))
            w)).
Proof.
  unfold set_at at 1. rewrite heap_unsubscribe.
  unfold unsubscribe, set_at, set_size. cbn [heap with_heap].
  intros ->. done.
Qed.

(** X18: [TimeSyncProvider]'s effect leaves the engine alone when the
    provider mounts and hands React [cleanup] as destructor.  With the
    default [createTimeSync], when that destructor runs, whatever happened
    before, no timer is pending and no handle is recorded, and nobody is
    unsubscribed by it.  It is not the end of the engine: an unsubscribe
    function that runs after it and empties its [Set] while the bucket map
    keeps an interval below [Infinity] arms a timer again. *)
Theorem TimeSyncProvider_destructor_cancels_but_does_not_unsubscribe
    behaviour initialTime ops u k :
  let mounted := TimeSyncProvider_effect (defaultCreateTimeSync initialTime) in
  let w := run behaviour ops mounted.1 in
  let w' := unmount mounted.2 w in
  let w'' := unsubscribe u w' in
  (mounted.1 = defaultCreateTimeSync initialTime
   ∧ w' = cleanup w
   ∧ pending (window w') = [] ∧ pending (injected w') = []
   ∧ nextTickId (this w') = None
   ∧ registrations w' = registrations w)
  ∧ (live (set_at w'' (subGroup u)) = [] →
     k ∈ map_keys (subscriptions (this w'')) →
     num_lt k Infinity = true →
     ∃ id, nextTickId (this w'') = Some id
           ∧ pending (window w'') = [(id, Infinity)]).
Proof.
  intros mounted w w' w''.
  assert (H : window_only w ∧ one_timer w).
  { apply timers_run. split; [done|]. split; [done|by left]. }
  destruct (timers_step behaviour w OpCleanup H) as [Hwo [Hi Hc]].
  change (step behaviour w OpCleanup) with w' in Hwo, Hi, Hc.
  assert (Hid : nextTickId (this w') = None).
  { unfold w', mounted. simpl. unfold cleanup.
    by destruct (nextTickId (this w)) eqn:E. }
  assert (Hnil : pending (window w') = []).
  { destruct Hc as [?|(id & d & _ & Hid')]; [done|congruence]. }
  split.
  - split_and!; try done.
    apply registrations_frame; unfold w', mounted; simpl; unfold cleanup;
      by destruct (nextTickId (this w)).
  - intros Hempty Hk Hlt.
    pose proof (timers_unsubscribe u w' (conj Hwo (conj Hi Hc)))
      as [Hwo'' [_ H1'']].
    fold w'' in Hwo'', H1''.
    pose proof (unsubscribe_empties u w' Hempty) as Heq. fold w'' in Heq.
    rewrite Heq in Hk. rewrite subscriptions_scheduleNextTick in Hk.
    destruct (scheduleNextTick_due _ k Hk Hlt) as (id & Hrec & Hin).
    rewrite <- Heq in Hrec, Hin.
    exists id. split; [done|].
    assert (Hst : setTimeout (this w') = Window) by apply Hwo.
    simpl in Hin. rewrite Hst in Hin. simpl in Hin.
    destruct H1'' as [Hno|(id' & d & Hone & _)].
    + rewrite Hno in Hin. by apply elem_of_nil in Hin.
    + rewrite Hone in Hin. apply list_elem_of_singleton in Hin.
      by rewrite Hone, Hin.
Qed.

Lemma TimeSyncProvider_destructor_cancels_but_does_not_unsubscribe_witness :
  let ops := [OpMount (Some {| formatter := None;
                               targetUpdateIntervalMs := Some (Finite 1000) |})
                1;
              OpMount (Some {| formatter := None;
                               targetUpdateIntervalMs := Some (Finite 5000) |})
                2] in
  let mounted := TimeSyncProvider_effect (defaultCreateTimeSync 3%Z) in
  let w := run all_quiet ops mounted.1 in
  let w' := unmount mounted.2 w in
  let u := {| subGroup := 0; request := req 1 (Finite 1000) |} in
  let w'' := unsubscribe u w' in
  closures w !! 0 = Some u
  ∧ pending (window w) = [(2, Infinity)]
  ∧ pending (window w') = []
  ∧ registrations w' = [(Finite 1000, 1); (Finite 5000, 2)]
  ∧ live (set_at w'' (subGroup u)) = []
  ∧ Finite 5000 ∈ map_keys (subscriptions (this w''))
  ∧ ∃ id, nextTickId (this w'') = Some id
          ∧ pending (window w'') = [(id, Infinity)].
Proof.
  intros ops mounted w w' u w''.
  assert (H1 : closures w !! 0 = Some u) by (vm_compute; reflexivity).
  assert (H2 : pending (window w) = [(2, Infinity)])
    by (vm_compute; reflexivity).
  assert (H3 : registrations w' = [(Finite 1000, 1); (Finite 5000, 2)])
    by (vm_compute; reflexivity).
  assert (H4 : live (set_at w'' (subGroup u)) = [])
    by (vm_compute; reflexivity).
  assert (H5 : Finite 5000 ∈ map_keys (subscriptions (this w''))).
  { assert (Hk : map_keys (subscriptions (this w'')) = [Finite 5000])
      by (vm_compute; reflexivity).
    rewrite Hk. left. }
  assert (H6 : num_lt (Finite 5000) Infinity = true) by reflexivity.
  pose proof (TimeSyncProvider_destructor_cancels_but_does_not_unsubscribe
                all_quiet 3%Z ops u (Finite 5000)) as [(_ & _ & Hnil & _) Harm].
  fold mounted w w' w'' in Hnil, Harm.
  split_and!; [exact H1|exact H2|exact Hnil|exact H3|exact H4|exact H5|].
  exact (Harm H4 H5 H6).
Defined.
